(** * The VITS tokenizer of icefall (egs/ljspeech/TTS/vits/tokenizer.py)

    A shallow embedding of [Tokenizer]: loading the token table, the
    character-to-pinyin rewriter and the assembly of token id sequences,
    followed by the properties the specification states about them.

    Python values are modelled as follows.
    - [str] is the list of its code points ([N]); a token is a [str].
    - [int] is [Z].
    - [dict] is stdpp's [gmap].
    - An exception ends the computation: a computation returns either an
      exception or a value, together with the events it emitted before
      (calls to [logging.warning] and to the romanizer [lazy_pinyin]). *)

From stdpp Require Import gmap list strings.
From Stdlib Require Import ZArith NArith Ascii Lia.

Local Open Scope N_scope.

(** ** Python strings *)

Abbreviation str := (list N).

(** An ASCII literal as a Python string. *)
Definition lit (s : string) : str :=
  N_of_ascii <$> String.list_ascii_of_string s.

(** [seg] iterated, or passed to [list.extend]: its characters, each a string
    of length one. *)
Definition chars (s : str) : list str := (λ c, [c]) <$> s.

(** [str.isspace] on one character, the set [str.split] and [str.rstrip]
    use when called without argument. *)
Definition isspace (c : N) : bool :=
  ((0x09 <=? c) && (c <=? 0x0D)) || ((0x1C <=? c) && (c <=? 0x20))
  || (c =? 0x85) || (c =? 0xA0) || (c =? 0x1680)
  || ((0x2000 <=? c) && (c <=? 0x200A))
  || (c =? 0x2028) || (c =? 0x2029) || (c =? 0x202F) || (c =? 0x205F)
  || (c =? 0x3000).

Fixpoint lstrip (s : str) : str :=
  match s with
  | c :: s' => if isspace c then lstrip s' else s
  | [] => []
  end.

(** [s.rstrip()] *)
Definition rstrip (s : str) : str := reverse (lstrip (reverse s)).

(** [s.split()]: the maximal runs of characters that are not white space.
    [cur] is the run being read, last character first. *)
Fixpoint split_from (cur : str) (s : str) : list str :=
  match s with
  | [] => match cur with [] => [] | _ => [reverse cur] end
  | c :: s' =>
      if isspace c then
        match cur with
        | [] => split_from [] s'
        | _ => reverse cur :: split_from [] s'
        end
      else split_from (c :: cur) s'
  end.

Definition split (s : str) : list str := split_from [] s.

Fixpoint is_prefix (p s : str) : bool :=
  match p, s with
  | [], _ => true
  | a :: p', b :: s' => (a =? b) && is_prefix p' s'
  | _ :: _, [] => false
  end.

(** [sub in s] on strings: [sub] occurs in [s] as a substring. *)
Fixpoint str_contains (s sub : str) : bool :=
  is_prefix sub s ||
  match s with
  | [] => false
  | _ :: s' => str_contains s' sub
  end.

(** [s.translate(table)], for a table from code points to strings. *)
Definition translate (table : gmap N str) (s : str) : str :=
  c ← s; default [c] (table !! c).

(** ** Exceptions and events *)

Inductive exn : Type :=
  | IndexError
  | KeyError (key : str)
  | ValueError (arg : str)
  | AssertionError (msg : str)
  | UnicodeEncodeError (c : N).

Inductive event : Type :=
  | Warning (msg : str)     (* logging.warning(msg) *)
  | Romanize (arg : str).   (* lazy_pinyin(arg, style=Style.TONE3, tone_sandhi=True) *)

(** A computation: the events emitted and then an exception or a value. *)
Definition M (A : Type) : Type := (list event * (exn + A))%type.

Definition ok {A} (a : A) : M A := ([], inr a).
Definition raise {A} (e : exn) : M A := ([], inl e).
Definition emit (ev : event) : M unit := ([ev], inr tt).

Definition bind {A B} (m : M A) (f : A → M B) : M B :=
  match m with
  | (evs, inl e) => (evs, inl e)
  | (evs, inr a) => let '(evs', r) := f a in (evs ++ evs', r)
  end.

#[global] Instance M_ret : MRet M := @ok.
#[global] Instance M_bind : MBind M := λ A B f m, bind m f.

(** [for x in xs: s = body(s, x)] *)
Fixpoint for_each {S X} (body : S → X → M S) (xs : list X) (s : S) : M S :=
  match xs with
  | [] => mret s
  | x :: xs' => s' ← body s x; for_each body xs' s'
  end.

(** [l[i]] on a list *)
Definition list_getitem {A} (l : list A) (i : nat) : M A :=
  match l !! i with
  | Some a => mret a
  | None => raise IndexError
  end.

(** [d[k]] on a dict with string keys *)
Definition dict_getitem {V} (d : gmap str V) (k : str) : M V :=
  match d !! k with
  | Some v => mret v
  | None => raise (KeyError k)
  end.

(** [k in d] *)
Definition dict_contains {V} (d : gmap str V) (k : str) : bool :=
  bool_decide (is_Some (d !! k)).

(** [assert c, msg] *)
Definition assert (c : bool) (msg : str) : M unit :=
  if c then mret tt else raise (AssertionError msg).

(** ** UTF-8 *)

(** The UTF-8 encoding of one code point; a surrogate has none. Code points
    above U+10FFFF do not occur in a Python string. *)
Definition utf8_encode_char (c : N) : M (list N) :=
  if c <? 0x80 then mret [c]
  else if c <? 0x800 then
    mret [N.lor 0xC0 (N.shiftr c 6); N.lor 0x80 (N.land c 0x3F)]
  else if c <? 0x10000 then
    if (0xD800 <=? c) && (c <=? 0xDFFF) then raise (UnicodeEncodeError c)
    else mret [N.lor 0xE0 (N.shiftr c 12);
               N.lor 0x80 (N.land (N.shiftr c 6) 0x3F);
               N.lor 0x80 (N.land c 0x3F)]
  else
    mret [N.lor 0xF0 (N.shiftr c 18);
          N.lor 0x80 (N.land (N.shiftr c 12) 0x3F);
          N.lor 0x80 (N.land (N.shiftr c 6) 0x3F);
          N.lor 0x80 (N.land c 0x3F)].

(** [bytes(s, "UTF-8")] *)
Definition bytes_utf8 (s : str) : M (list N) :=
  for_each (λ acc c, b ← utf8_encode_char c; mret (acc ++ b)) s [].

(** ** The tokenizer object *)

Record Tokenizer : Type := {
  token2id : gmap str Z;
  pad_id : Z;
  sos_id : Z;
  eos_id : Z;
  space_id : Z;
  vocab_size : nat
}.

(** *** [Tokenizer.__init__] *)

Section Vocabulary.

(** Python's built-in [int] applied to a string: the integer it denotes,
    or [ValueError]. *)
Variable int : str → M Z.

(** The body of the loop over [f.readlines()]. *)
Definition parse_line (token2id : gmap str Z) (line : str) : M (gmap str Z) :=
  let info := split (rstrip line) in
  '(token, id) ←
    (if (length info =? 1)%nat then
       (* case of space *)
       s ← list_getitem info 0;
       id ← int s;
       mret (lit " ", id)
     else
       token ← list_getitem info 0;
       s ← list_getitem info 1;
       id ← int s;
       mret (token, id));
  _ ← assert (negb (dict_contains token2id token)) token;
  mret (<[token := id]> token2id).

(** The token file is given by its lines, as [f.readlines()] returns them. *)
Definition parse_token_file (lines : list str) : M (gmap str Z) :=
  for_each parse_line lines ∅.

Definition Tokenizer_init (lines : list str) : M Tokenizer :=
  token2id ← parse_token_file lines;
  pad_id ← dict_getitem token2id (lit "_");
  sos_id ← dict_getitem token2id (lit "^");
  eos_id ← dict_getitem token2id (lit "$");
  space_id ← dict_getitem token2id (lit " ");
  mret {| token2id := token2id; pad_id := pad_id; sos_id := sos_id;
          eos_id := eos_id; space_id := space_id;
          vocab_size := size token2id |}.

End Vocabulary.

(** *** [Tokenizer.convert_char_to_pinyin] *)

(** [custom_trans], the table built by [str.maketrans]. *)
Definition custom_trans : gmap N str :=
  list_to_map
    [ (0xFF08, lit "("); (0xFF09, lit ")"); (0xFF1A, lit ":");
      (0xFF1B, lit ","); (0x3B, lit ",");
      (0x201C, [0x22]); (0x201D, [0x22]);
      (0x2018, lit "'"); (0x2019, lit "'") ].

Definition is_chinese (c : N) : bool :=
  (0x3100 <=? c) && (c <=? 0x9FFF).  (* common chinese characters *)

(** The string the last emitted token is looked up in: space, colon,
    apostrophe and double quote. *)
Definition no_space_after : str := lit " :'" ++ [0x22].

Section Pinyin.

(** The collaborators: [jieba.cut] as the list of the segments it yields,
    and [lazy_pinyin] with [style=Style.TONE3, tone_sandhi=True]. *)
Variable cut : str → list str.
Variable lazy_pinyin : str → list str.

Definition call_lazy_pinyin (s : str) : M (list str) :=
  _ ← emit (Romanize s); mret (lazy_pinyin s).

(** The body of the loop over [jieba.cut(text)]. *)
Definition convert_seg (polyphone : bool) (char_list : list str) (seg : str)
  : M (list str) :=
  b ← bytes_utf8 seg;
  let seg_byte_len := length b in
  if (seg_byte_len =? length seg)%nat then
    (* if pure alphabets and symbols *)
    (* the separator: char_list is not empty, seg_byte_len > 1, and
       char_list[-1] is not in the four-character string *)
    let char_list :=
      match last char_list with
      | Some prev =>
          if (1 <? seg_byte_len)%nat && negb (str_contains no_space_after prev)
          then char_list ++ [lit " "]
          else char_list
      | None => char_list
      end in
    mret (char_list ++ chars seg)
  else if polyphone && (seg_byte_len =? 3 * length seg)%nat then
    (* if pure east asian characters *)
    seg_ ← call_lazy_pinyin seg;
    for_each
      (λ char_list '(i, c),
         let char_list :=
           if is_chinese c then char_list ++ [lit " "] else char_list in
         p ← list_getitem seg_ i;
         mret (char_list ++ [p]))
      (zip (seq 0 (length seg)) seg) char_list
  else
    (* if mixed characters, alphabets and symbols *)
    for_each
      (λ char_list c,
         if c <? 256 then mret (char_list ++ chars [c])
         else if is_chinese c then
           p ← call_lazy_pinyin [c];
           mret ((char_list ++ [lit " "]) ++ p)
         else mret (char_list ++ [[c]]))
      seg char_list.

(** The body of the loop over [text_list]. *)
Definition convert_text (polyphone : bool) (text : str) : M (list str) :=
  let text := translate custom_trans text in
  for_each (convert_seg polyphone) (cut text) [].

Definition convert_char_to_pinyin (text_list : list str) (polyphone : bool)
  : M (list (list str)) :=
  for_each
    (λ final_text_list text,
       char_list ← convert_text polyphone text;
       mret (final_text_list ++ [char_list]))
    text_list [].

End Pinyin.

(** *** [Tokenizer.tokens_to_token_ids] and [Tokenizer.texts_to_token_ids] *)

Section Assembler.

(** [utils.intersperse], imported from the module [utils]; the tokenizer
    is modelled for any such function. *)
Variable intersperse : list Z → Z → list Z.

(** The body of the loop over the tokens of one utterance. *)
Definition append_token_id (self : Tokenizer) (token_ids : list Z) (t : str)
  : M (list Z) :=
  if negb (dict_contains (token2id self) t) then
    _ ← emit (Warning (lit "Skip OOV " ++ t));
    mret token_ids
  else
    id ← dict_getitem (token2id self) t;
    mret (token_ids ++ [id]).

(** The body of the loop over [tokens_list]. *)
Definition tokens_to_ids (self : Tokenizer)
    (intersperse_blank add_sos add_eos : bool) (tokens : list str)
  : M (list Z) :=
  token_ids ← for_each (append_token_id self) tokens [];
  let token_ids :=
    if intersperse_blank then intersperse token_ids (pad_id self)
    else token_ids in
  let token_ids :=
    if add_sos then [sos_id self] ++ token_ids else token_ids in
  let token_ids :=
    if add_eos then token_ids ++ [eos_id self] else token_ids in
  mret token_ids.

Definition tokens_to_token_ids (self : Tokenizer) (tokens_list : list (list str))
    (intersperse_blank add_sos add_eos : bool) : M (list (list Z)) :=
  for_each
    (λ token_ids_list tokens,
       token_ids ← tokens_to_ids self intersperse_blank add_sos add_eos tokens;
       mret (token_ids_list ++ [token_ids]))
    tokens_list [].

Variable cut : str → list str.
Variable lazy_pinyin : str → list str.

(** [None] is Python's [None], what a function returns when it reaches its
    end without a [return]. *)
Definition texts_to_token_ids (self : Tokenizer) (texts : list str)
    (intersperse_blank add_sos add_eos : bool) (lang : str)
  : M (option (list (list Z))) :=
  if bool_decide (lang ∈ [lit "cmn"; lit "zh-cn"]) then
    tokens_list ← convert_char_to_pinyin cut lazy_pinyin texts true;
    r ← tokens_to_token_ids self tokens_list
          intersperse_blank add_sos add_eos;
    mret (Some r)
  else
    (* the rest of the body is a string literal *)
    mret None.

End Assembler.

(** ** The blank interspersion, from the specification *)

(** Modelled from the spec: [utils.intersperse] is imported by the tokenizer
    and its module is missing from the sources. The specification's
    ApplyBlankInterspersion returns a new sequence with [pad_id] inserted
    between every pair of adjacent original ids, not before the first or
    after the last element. *)
Fixpoint ApplyBlankInterspersion (id_sequence : list Z) (pad_id : Z) : list Z :=
  match id_sequence with
  | [] => []
  | [x] => [x]
  | x :: rest => x :: pad_id :: ApplyBlankInterspersion rest pad_id
  end.

(** ** Sample collaborators

    Concrete stand-ins for the built-in [int], the segmenter and the
    romanizer, used to run the model on examples. *)

(** The value of a string of ASCII digits, read after [acc]. *)
Fixpoint digits_value (acc : Z) (s : str) : option Z :=
  match s with
  | [] => Some acc
  | c :: s' =>
      if (0x30 <=? c) && (c <=? 0x39)
      then digits_value (10 * acc + Z.of_N (c - 0x30))%Z s'
      else None
  end.

(** Decimal numerals of ASCII digits with an optional sign, on which it agrees
    with [int]; anything else is a [ValueError] here. *)
Definition ascii_int (s : str) : M Z :=
  let '(sign, ds) :=
    match s with
    | 0x2D :: ds => ((-1)%Z, ds)
    | 0x2B :: ds => (1%Z, ds)
    | _ => (1%Z, s)
    end in
  match ds with
  | [] => raise (ValueError s)
  | _ => match digits_value 0 ds with
         | Some v => mret (sign * v)%Z
         | None => raise (ValueError s)
         end
  end.

(** A segmenter that yields the whole text as one segment (nothing for the
    empty text). *)
Definition whole_cut (text : str) : list str :=
  match text with [] => [] | _ => [text] end.

Definition ni3 : str := lit "ni3".
Definition hao3 : str := lit "hao3".

(** A romanizer that knows U+4F60 and U+597D and leaves any other character
    as it is, one output string per input character. *)
Definition sample_pinyin (s : str) : list str :=
  (λ c, if c =? 0x4F60 then ni3 else if c =? 0x597D then hao3 else [c]) <$> s.

(** A small token file: the reserved tokens (the fourth line is the id of
    the space), two letters and two syllables; and the tokenizer it loads. *)
Definition sample_lines : list str :=
  [ lit "_ 0"; lit "^ 1"; lit "$ 2"; lit "3"; lit "a 4"; lit "n 5";
    lit "ni3 6"; lit "hao3 7" ].

Definition sample_tokenizer : Tokenizer :=
  {| token2id :=
       list_to_map
         [ (lit "_", 0%Z); (lit "^", 1%Z); (lit "$", 2%Z); (lit " ", 3%Z);
           (lit "a", 4%Z); (lit "n", 5%Z); (ni3, 6%Z); (hao3, 7%Z) ];
     pad_id := 0; sos_id := 1; eos_id := 2; space_id := 3;
     vocab_size := 8 |}.

(** ** The assembler's steps, as the specification words them *)

(** Map: the ids of the tokens that are present in the vocabulary, in the
    order of the tokens; an absent token is omitted. *)
Definition MapTokens (token_to_id : gmap str Z) (tokens : list str) : list Z :=
  omap (λ t, token_to_id !! t) tokens.

(** The diagnostics of Map: one warning for each absent token, naming it. *)
Definition MapDiagnostics (token_to_id : gmap str Z) (tokens : list str)
  : list event :=
  (λ t, Warning (lit "Skip OOV " ++ t)) <$>
    filter (λ t, token_to_id !! t = None) tokens.

(** ApplySosEos: prepends [sos_id] iff [add_sos], appends [eos_id] iff
    [add_eos]. *)
Definition ApplySosEos (id_sequence : list Z) (sos_id eos_id : Z)
    (add_sos add_eos : bool) : list Z :=
  (if add_sos then [sos_id] else []) ++ id_sequence ++
  (if add_eos then [eos_id] else []).

(** The ASCII or half-width equivalent of a punctuation character, in the
    specification's words: a full-width form U+FF01..U+FF5E stands for the
    ASCII character U+0021..U+007E at the same offset, a curly double quote
    for the ASCII double quote and a curly single quote for the apostrophe. *)
Definition halfwidth_equivalent (c : N) : N :=
  if (0xFF01 <=? c) && (c <=? 0xFF5E) then c - 0xFEE0
  else if (c =? 0x201C) || (c =? 0x201D) then 0x22
  else if (c =? 0x2018) || (c =? 0x2019) then 0x27
  else c.

(** [sub] occurs in [s]. *)
Definition substring (sub s : str) : Prop := ∃ l1 l2, s = l1 ++ sub ++ l2.

(** The rewriting of the pure east asian branch, in the specification's
    words: each character is replaced by its syllable, with a separator
    immediately before the syllable of a character of the range
    U+3100..U+9FFF. *)
Definition with_separator (c : N) (syllable : str) : list str :=
  if is_chinese c then [lit " "; syllable] else [syllable].

(** The text of the end-to-end example, U+4F60 U+597D. *)
Definition nihao : str := [0x4F60; 0x597D].

(** The number of bytes of the UTF-8 encoding of a code point. *)
Definition utf8_width (c : N) : nat :=
  if c <? 0x80 then 1 else if c <? 0x800 then 2
  else if c <? 0x10000 then 3 else 4.

(** ** Notions used to state further properties *)

(** What the loop body of [__init__] reads from a line: the token and the
    string handed to [int]. A line of one field stands for the space; of a
    line of more than two fields the first two are read; a line without
    field has neither. *)
Definition line_fields (line : str) : option (str * str) :=
  match split (rstrip line) with
  | [] => None
  | [s] => Some (lit " ", s)
  | token :: s :: _ => Some (token, s)
  end.

(** The tokens [__init__] looks up after the loop, in the order of the
    lookups. *)
Definition reserved_tokens : list str :=
  [lit "_"; lit "^"; lit "$"; lit " "].

(** The keys of [custom_trans]. *)
Definition custom_trans_keys : list N :=
  [0xFF08; 0xFF09; 0xFF1A; 0xFF1B; 0x3B; 0x201C; 0x201D; 0x2018; 0x2019].

(** The code points U+D800..U+DFFF, which UTF-8 does not encode. *)
Definition is_surrogate (c : N) : bool := (0xD800 <=? c) && (c <=? 0xDFFF).

(** * Properties *)

(** ** Computations *)

Lemma bind_ok {A B} (a : A) (f : A → M B) : (mret a ≫= f) = f a.
Proof. unfold mbind, M_bind, mret, M_ret, bind, ok. by destruct (f a). Qed.

Lemma bind_raise {A B} (e : exn) (f : A → M B) : (raise e ≫= f) = raise e.
Proof. reflexivity. Qed.

Lemma bind_run {A B} evs (a : A) (f : A → M B) :
  ((evs, inr a) : M A) ≫= f = (evs ++ (f a).1, (f a).2).
Proof. unfold mbind, M_bind, bind. by destruct (f a). Qed.

Lemma bind_fail {A B} evs e (f : A → M B) :
  ((evs, inl e) : M A) ≫= f = (evs, inl e).
Proof. reflexivity. Qed.

Lemma bind_inr {A B} (m : M A) (f : A → M B) evs b :
  m ≫= f = (evs, inr b) →
  ∃ evs1 a evs2, m = (evs1, inr a) ∧ f a = (evs2, inr b) ∧ evs = evs1 ++ evs2.
Proof.
  destruct m as [evs1 [e|a]]; [done|].
  rewrite bind_run. destruct (f a) as [evs2 r] eqn:Hf; simpl.
  intros [= <- ->]. by exists evs1, a, evs2.
Qed.

Lemma for_each_app {S X} (body : S → X → M S) xs ys s :
  for_each body (xs ++ ys) s = for_each body xs s ≫= for_each body ys.
Proof.
  revert s. induction xs as [|x xs IH]; intros s; cbn [for_each app].
  - symmetry. apply bind_ok.
  - destruct (body s x) as [evs [e|s']]; [done|].
    rewrite !bind_run, IH.
    destruct (for_each body xs s') as [evs' [e|s'']].
    + by rewrite !bind_fail.
    + rewrite !bind_run. cbn [fst snd]. rewrite bind_run. by rewrite (assoc_L (++)).
Qed.

Lemma for_each_fmap {S X Y} (body : S → Y → M S) (f : X → Y) xs s :
  for_each body (f <$> xs) s = for_each (λ s x, body s (f x)) xs s.
Proof.
  revert s. induction xs as [|x xs IH]; intros s; [done|].
  cbn [for_each fmap list_fmap].
  destruct (body s (f x)) as [evs [e|s']]; [done|].
  by rewrite !bind_run, IH.
Qed.

(** A loop whose body appends to the state what depends on the element only
    collects the events and the appended items in order. *)
Lemma for_each_collect {X B} (body : list B → X → M (list B))
    (ev : X → list event) (g : X → list B) xs s :
  (∀ s x, body s x = (ev x, inr (s ++ g x))) →
  for_each body xs s = (xs ≫= ev, inr (s ++ xs ≫= g)).
Proof.
  intros Hbody. revert s. induction xs as [|x xs IH]; intros s; cbn [for_each].
  - cbn. by rewrite app_nil_r.
  - rewrite Hbody, bind_run, IH. cbn. by rewrite (assoc_L (++)).
Qed.

(** ** Loading the vocabulary *)

Section VocabularyFacts.

Variable int : str → M Z.

Lemma parse_line_blank d line :
  rstrip line = [] → parse_line int d line = raise IndexError.
Proof. intros Hb. unfold parse_line. by rewrite Hb. Qed.

Lemma parse_token_file_blank pre blank post :
  rstrip blank = [] →
  parse_token_file int (pre ++ blank :: post) =
    parse_token_file int pre ≫= λ _, raise IndexError.
Proof.
  intros Hb. unfold parse_token_file. rewrite for_each_app.
  destruct (for_each (parse_line int) pre ∅) as [evs [e|d]].
  - by rewrite !bind_fail.
  - rewrite !bind_run. cbn [for_each].
    by rewrite parse_line_blank, bind_raise.
Qed.

(** C10 (amended). A line that is empty after stripping trailing white
    space is never skipped: a token file that contains one cannot be
    loaded, and when the lines before it were read without an exception,
    the exception raised is the IndexError of indexing the empty field
    list. *)
Theorem C10_blank_line_not_skipped pre blank post :
  rstrip blank = [] →
  (∃ e, (Tokenizer_init int (pre ++ blank :: post)).2 = inl e) ∧
  (∀ evs d, parse_token_file int pre = (evs, inr d) →
     Tokenizer_init int (pre ++ blank :: post) = (evs, inl IndexError)).
Proof.
  intros Hb. unfold Tokenizer_init.
  rewrite (parse_token_file_blank _ _ _ Hb).
  destruct (parse_token_file int pre) as [evs [e|d]]; split.
  - by exists e.
  - by intros ?? [=].
  - exists IndexError. by rewrite bind_run.
  - intros ?? [= <- <-]. rewrite bind_run. cbn [raise fst snd].
    by rewrite bind_fail, app_nil_r.
Qed.

(** What a loaded tokenizer holds: the reserved ids are the values of the
    reserved tokens in its table. *)
Lemma Tokenizer_init_reserved lines evs self :
  Tokenizer_init int lines = (evs, inr self) →
  token2id self !! lit "_" = Some (pad_id self) ∧
  token2id self !! lit "^" = Some (sos_id self) ∧
  token2id self !! lit "$" = Some (eos_id self) ∧
  token2id self !! lit " " = Some (space_id self) ∧
  vocab_size self = size (token2id self).
Proof.
  unfold Tokenizer_init, dict_getitem. intros H.
  apply bind_inr in H as (? & d & ? & _ & H & _).
  destruct (d !! lit "_") as [p|] eqn:Hp; [|done].
  apply bind_inr in H as (? & ? & ? & [= _ <-] & H & _).
  destruct (d !! lit "^") as [b|] eqn:Hs; [|done].
  apply bind_inr in H as (? & ? & ? & [= _ <-] & H & _).
  destruct (d !! lit "$") as [e|] eqn:He; [|done].
  apply bind_inr in H as (? & ? & ? & [= _ <-] & H & _).
  destruct (d !! lit " ") as [w|] eqn:Hw; [|done].
  apply bind_inr in H as (? & ? & ? & [= _ <-] & H & _).
  injection H as _ <-. by cbn.
Qed.

End VocabularyFacts.

Lemma C10_blank_line_not_skipped_witness :
  rstrip [10] = [] ∧
  Tokenizer_init ascii_int [lit "_ 0"; [10]; lit "^ 1"] = ([], inl IndexError).
Proof.
  split; [reflexivity|].
  apply (proj2 (C10_blank_line_not_skipped ascii_int [lit "_ 0"] [10]
                  [lit "^ 1"] eq_refl) [] {[ lit "_" := 0%Z ]}).
  reflexivity.
Defined.

(** C10 as stated fails: here the last line is empty, and the load stops
    earlier, at the repeated token of the second line, with the
    AssertionError of the duplicate check and not with an IndexError. *)
Lemma C10_counterexample :
  rstrip (lit "") = [] ∧
  Tokenizer_init ascii_int [lit "a 1"; lit "a 2"; lit ""]
    = ([], inl (AssertionError (lit "a"))) ∧
  (Tokenizer_init ascii_int [lit "a 1"; lit "a 2"; lit ""]).2 ≠ inl IndexError.
Proof. split; [reflexivity|]. split; [reflexivity|]. vm_compute. discriminate. Qed.

(** ** Assembling token ids *)

Section AssemblerFacts.

Variable intersperse : list Z → Z → list Z.

Lemma append_token_id_run self token_ids t :
  append_token_id self token_ids t =
    (MapDiagnostics (token2id self) [t],
     inr (token_ids ++ MapTokens (token2id self) [t])).
Proof.
  unfold append_token_id, dict_contains, dict_getitem, MapDiagnostics,
    MapTokens.
  cbn [omap list_omap]. rewrite filter_cons, filter_nil.
  destruct (token2id self !! t) as [id|] eqn:Ht.
  - rewrite bool_decide_eq_true_2 by by eexists.
    rewrite decide_False by done. cbn [negb]. by rewrite bind_ok.
  - rewrite bool_decide_eq_false_2 by by intros [? [=]].
    rewrite decide_True by done. cbn [negb].
    unfold emit. rewrite bind_run. cbn. by rewrite app_nil_r.
Qed.

Lemma MapTokens_bind d tokens :
  (tokens ≫= λ t, MapTokens d [t]) = MapTokens d tokens.
Proof.
  unfold MapTokens. induction tokens as [|t ts IH]; [done|].
  rewrite bind_cons, IH. cbn [omap list_omap]. by destruct (d !! t).
Qed.

Lemma MapDiagnostics_bind d tokens :
  (tokens ≫= λ t, MapDiagnostics d [t]) = MapDiagnostics d tokens.
Proof.
  unfold MapDiagnostics. induction tokens as [|t ts IH]; [done|].
  rewrite bind_cons, IH, !filter_cons, filter_nil.
  by destruct (decide (d !! t = None)).
Qed.

(** One utterance: Map, then the three optional steps in order. *)
Lemma tokens_to_ids_run self ib add_sos add_eos tokens :
  tokens_to_ids intersperse self ib add_sos add_eos tokens =
    (MapDiagnostics (token2id self) tokens,
     inr (ApplySosEos
            (if ib then intersperse (MapTokens (token2id self) tokens)
                                    (pad_id self)
             else MapTokens (token2id self) tokens)
            (sos_id self) (eos_id self) add_sos add_eos)).
Proof.
  unfold tokens_to_ids.
  rewrite (for_each_collect _ _ _ _ _ (append_token_id_run self)).
  rewrite MapTokens_bind, MapDiagnostics_bind, bind_run.
  cbn [fst snd mret M_ret ok app]. rewrite app_nil_r.
  unfold ApplySosEos. by destruct add_sos, add_eos; rewrite ?app_nil_r.
Qed.

Lemma tokens_to_token_ids_run self tokens_list ib add_sos add_eos :
  tokens_to_token_ids intersperse self tokens_list ib add_sos add_eos =
    (tokens_list ≫= MapDiagnostics (token2id self),
     inr ((λ tokens,
             ApplySosEos
               (if ib then intersperse (MapTokens (token2id self) tokens)
                                       (pad_id self)
                else MapTokens (token2id self) tokens)
               (sos_id self) (eos_id self) add_sos add_eos)
          <$> tokens_list)).
Proof.
  unfold tokens_to_token_ids.
  erewrite (for_each_collect _ _ (λ tokens, [_])); cycle 1.
  { intros s tokens. rewrite tokens_to_ids_run, bind_run.
    cbn [fst snd mret M_ret ok]. by rewrite app_nil_r. }
  reflexivity.
Qed.

(** C5. Mapping tokens to ids never raises: for every batch the result is a
    value, with one id sequence per utterance. A token absent from the
    vocabulary is dropped (MapTokens keeps the ids of the present tokens
    only), a warning naming it is emitted, the tokens after it are still
    mapped, and the id sequence of an utterance is a function of the tokens
    of that utterance alone. *)
Theorem C5_unknown_token_dropped self tokens_list ib add_sos add_eos :
  ∃ out,
    tokens_to_token_ids intersperse self tokens_list ib add_sos add_eos
      = (tokens_list ≫= MapDiagnostics (token2id self), inr out) ∧
    length out = length tokens_list ∧
    (∀ i tokens, tokens_list !! i = Some tokens →
       out !! i =
         Some (ApplySosEos
                 (if ib
                  then intersperse (MapTokens (token2id self) tokens)
                                   (pad_id self)
                  else MapTokens (token2id self) tokens)
                 (sos_id self) (eos_id self) add_sos add_eos)) ∧
    (∀ tokens id, id ∈ MapTokens (token2id self) tokens ↔
       ∃ t, t ∈ tokens ∧ token2id self !! t = Some id) ∧
    (∀ tokens t, Warning (lit "Skip OOV " ++ t)
                   ∈ MapDiagnostics (token2id self) tokens ↔
       t ∈ tokens ∧ token2id self !! t = None).
Proof.
  eexists. split; [apply tokens_to_token_ids_run|].
  split; [by rewrite length_fmap|]. split; [|split].
  - intros i tokens Hi. by rewrite list_lookup_fmap, Hi.
  - intros tokens id. unfold MapTokens. rewrite list_elem_of_omap.
    naive_solver.
  - intros tokens t. unfold MapDiagnostics. rewrite list_elem_of_fmap.
    split.
    + intros (t' & [= ->] & Hin).
      by apply list_elem_of_filter in Hin as [? ?].
    + intros [? ?]. exists t. split; [done|].
      by apply list_elem_of_filter.
Qed.

(** C8. With [add_sos] and [add_eos] both set, the sos/eos step makes the
    id sequence longer by exactly two, with [sos_id] at index 0 and
    [eos_id] at the last index; and for all flags the output is the mapped
    ids, then the optional interspersion, then the optional sos in front,
    then the optional eos behind. *)
Theorem C8_sos_eos_and_order self ib tokens :
  (∀ add_sos add_eos,
     (tokens_to_ids intersperse self ib add_sos add_eos tokens).2 =
       inr ((if add_sos then [sos_id self] else []) ++
            (if ib
             then intersperse (MapTokens (token2id self) tokens)
                              (pad_id self)
             else MapTokens (token2id self) tokens) ++
            (if add_eos then [eos_id self] else []))) ∧
  (∃ out,
     (tokens_to_ids intersperse self ib true true tokens).2 = inr out ∧
     (length out =
        length (if ib
                then intersperse (MapTokens (token2id self) tokens)
                                 (pad_id self)
                else MapTokens (token2id self) tokens) + 2)%nat ∧
     out !! 0%nat = Some (sos_id self) ∧
     out !! (length out - 1)%nat = Some (eos_id self)).
Proof.
  split.
  - intros add_sos add_eos. by rewrite tokens_to_ids_run.
  - rewrite tokens_to_ids_run. eexists. split; [reflexivity|].
    unfold ApplySosEos. rewrite !length_app. cbn [length app]. 
    split; [lia|]. split; [done|].
    rewrite app_comm_cons, lookup_app_r; cbn [length]; [|lia].
    by replace (_ - _)%nat with 0%nat by lia.
Qed.

(** C6. For a tokenizer that was loaded from a token file, every integer
    of every id sequence [tokens_to_token_ids] returns is a value of the
    vocabulary mapping, for all flags. The interspersion is only assumed
    to return elements of its arguments. *)
Theorem C6_ids_from_vocabulary int lines evs self
    tokens_list ib add_sos add_eos out ids id :
  (∀ s p x, x ∈ intersperse s p → x ∈ s ∨ x = p) →
  Tokenizer_init int lines = (evs, inr self) →
  (tokens_to_token_ids intersperse self tokens_list ib add_sos add_eos).2
    = inr out →
  ids ∈ out → id ∈ ids →
  ∃ t, token2id self !! t = Some id.
Proof.
  intros Hinter Hinit Hrun Hids Hid.
  apply Tokenizer_init_reserved in Hinit as (Hpad & Hsos & Heos & _).
  rewrite tokens_to_token_ids_run in Hrun. injection Hrun as <-.
  apply list_elem_of_fmap in Hids as (tokens & -> & _).
  assert (Hmap : ∀ x, x ∈ MapTokens (token2id self) tokens →
                      ∃ t, token2id self !! t = Some x).
  { intros x Hx. unfold MapTokens in Hx.
    apply list_elem_of_omap in Hx as (t & _ & Ht). by exists t. }
  unfold ApplySosEos in Hid.
  rewrite !elem_of_app in Hid. destruct Hid as [Hid|[Hid|Hid]].
  - destruct add_sos; [|by apply elem_of_nil in Hid].
    apply list_elem_of_singleton in Hid as ->. by eexists.
  - destruct ib; [|by apply Hmap].
    apply Hinter in Hid as [Hid| ->]; [by apply Hmap|by eexists].
  - destruct add_eos; [|by apply elem_of_nil in Hid].
    apply list_elem_of_singleton in Hid as ->. by eexists.
Qed.

Variable cut : str → list str.
Variable lazy_pinyin : str → list str.

(** C9. For a language tag other than cmn and zh-cn, [texts_to_token_ids]
    returns Python's None: no list of id lists, and no exception. *)
Theorem C9_other_language_returns_None self texts ib add_sos add_eos lang :
  lang ≠ lit "cmn" → lang ≠ lit "zh-cn" →
  texts_to_token_ids intersperse cut lazy_pinyin self texts
    ib add_sos add_eos lang = ([], inr None).
Proof.
  intros H1 H2. unfold texts_to_token_ids.
  rewrite bool_decide_eq_false_2; [done|].
  rewrite !elem_of_cons, elem_of_nil. tauto.
Qed.

End AssemblerFacts.

Lemma ApplyBlankInterspersion_elem ids pad x :
  x ∈ ApplyBlankInterspersion ids pad → x ∈ ids ∨ x = pad.
Proof.
  induction ids as [|a [|b rest] IH]; cbn [ApplyBlankInterspersion].
  - by left.
  - by left.
  - intros Hx.
    apply elem_of_cons in Hx as [->|Hx]; [left; apply list_elem_of_here|].
    apply elem_of_cons in Hx as [->|Hx]; [by right|].
    destruct (IH Hx) as [Hin| ->]; [|by right].
    left. by apply list_elem_of_further.
Qed.

Lemma C6_ids_from_vocabulary_witness :
  ∃ t, token2id sample_tokenizer !! t = Some 0%Z.
Proof.
  apply (C6_ids_from_vocabulary ApplyBlankInterspersion ascii_int
           sample_lines [] sample_tokenizer
           [[lit "a"; lit "?"; lit "n"]] true true true
           [[1; 4; 0; 5; 2]%Z] [1; 4; 0; 5; 2]%Z 0%Z).
  - apply ApplyBlankInterspersion_elem.
  - vm_compute. reflexivity.
  - vm_compute. reflexivity.
  - apply list_elem_of_here.
  - do 2 apply list_elem_of_further. apply list_elem_of_here.
Defined.

Lemma C9_other_language_returns_None_witness :
  texts_to_token_ids ApplyBlankInterspersion whole_cut sample_pinyin
    sample_tokenizer [lit "hello"] true false false (lit "en-us")
  = ([], inr None).
Proof.
  apply C9_other_language_returns_None; intros [=].
Defined.

(** ** The blank interspersion *)

Lemma ApplyBlankInterspersion_cons a b rest pad :
  ApplyBlankInterspersion (a :: b :: rest) pad =
    a :: pad :: ApplyBlankInterspersion (b :: rest) pad.
Proof. reflexivity. Qed.

Lemma ApplyBlankInterspersion_length ids pad :
  length (ApplyBlankInterspersion ids pad) = (2 * length ids - 1)%nat.
Proof.
  induction ids as [|a ids IH]; [done|].
  destruct ids as [|b rest]; [done|].
  rewrite ApplyBlankInterspersion_cons. cbn [length] in *. lia.
Qed.

(** The original ids are at the even indices. *)
Lemma ApplyBlankInterspersion_even ids pad i :
  ApplyBlankInterspersion ids pad !! (2 * i)%nat = ids !! i.
Proof.
  revert i. induction ids as [|a ids IH]; intros i; [done|].
  destruct ids as [|b rest].
  - destruct i as [|i]; [done|].
    by replace (2 * S i)%nat with (S (S (2 * i))) by lia.
  - rewrite ApplyBlankInterspersion_cons.
    destruct i as [|i]; [done|].
    replace (2 * S i)%nat with (S (S (2 * i))) by lia.
    cbn [lookup list_lookup]. apply IH.
Qed.

(** The pad id is at the odd indices. *)
Lemma ApplyBlankInterspersion_odd ids pad i :
  (i + 1 < length ids)%nat →
  ApplyBlankInterspersion ids pad !! (2 * i + 1)%nat = Some pad.
Proof.
  revert i. induction ids as [|a ids IH]; intros i Hi; [cbn in Hi; lia|].
  destruct ids as [|b rest]; [cbn in Hi; lia|].
  rewrite ApplyBlankInterspersion_cons.
  destruct i as [|i]; [done|].
  replace (2 * S i + 1)%nat with (S (S (2 * i + 1))) by lia.
  cbn [lookup list_lookup]. apply IH. cbn [length] in *. lia.
Qed.

(** C2. On an id sequence of length n >= 2 the interspersion returns a
    sequence of length 2n-1 whose even indices hold the original ids in
    order and whose odd indices hold the pad id: a pad between every two
    adjacent ids, none before the first or after the last. A sequence of
    length 0 or 1 is returned unchanged. *)
Theorem C2_blank_interspersion ids pad :
  ((2 ≤ length ids)%nat →
     length (ApplyBlankInterspersion ids pad) = (2 * length ids - 1)%nat ∧
     (∀ i, (i < length ids)%nat →
        ApplyBlankInterspersion ids pad !! (2 * i)%nat = ids !! i) ∧
     (∀ i, (i + 1 < length ids)%nat →
        ApplyBlankInterspersion ids pad !! (2 * i + 1)%nat = Some pad) ∧
     head (ApplyBlankInterspersion ids pad) = head ids ∧
     last (ApplyBlankInterspersion ids pad) = last ids) ∧
  ((length ids ≤ 1)%nat → ApplyBlankInterspersion ids pad = ids).
Proof.
  split.
  - intros Hn.
    split; [apply ApplyBlankInterspersion_length|].
    split; [intros i _; apply ApplyBlankInterspersion_even|].
    split; [apply ApplyBlankInterspersion_odd|].
    split.
    + rewrite !head_lookup.
      apply (ApplyBlankInterspersion_even ids pad 0).
    + rewrite !last_lookup, ApplyBlankInterspersion_length.
      replace (Init.Nat.pred (2 * length ids - 1))
        with (2 * Init.Nat.pred (length ids))%nat by lia.
      apply ApplyBlankInterspersion_even.
  - destruct ids as [|a [|b rest]]; [done|done|].
    cbn [length]. lia.
Qed.

Lemma C2_blank_interspersion_witness :
  ApplyBlankInterspersion [7; 8; 9]%Z 0%Z = [7; 0; 8; 0; 9]%Z ∧
  length (ApplyBlankInterspersion [7; 8; 9]%Z 0%Z) = 5%nat ∧
  ApplyBlankInterspersion [7]%Z 0%Z = [7]%Z.
Proof.
  split; [reflexivity|]. split.
  - apply (proj1 (C2_blank_interspersion [7; 8; 9]%Z 0%Z)). cbn. lia.
  - apply (proj2 (C2_blank_interspersion [7]%Z 0%Z)). cbn. lia.
Defined.

(** ** UTF-8 byte lengths *)

Lemma utf8_encode_char_inr c evs b :
  utf8_encode_char c = (evs, inr b) → evs = [] ∧ length b = utf8_width c.
Proof.
  unfold utf8_encode_char, utf8_width.
  destruct (c <? 0x80); [by intros [= <- <-]|].
  destruct (c <? 0x800); [by intros [= <- <-]|].
  destruct (c <? 0x10000); [|by intros [= <- <-]].
  destruct ((0xD800 <=? c) && (c <=? 0xDFFF)); [done|by intros [= <- <-]].
Qed.

Lemma bytes_utf8_from seg acc evs b :
  for_each (λ acc c, b ← utf8_encode_char c; mret (acc ++ b)) seg acc
    = (evs, inr b) →
  evs = [] ∧ length b = (length acc + sum_list (utf8_width <$> seg))%nat.
Proof.
  revert acc evs. induction seg as [|c seg IH]; intros acc evs.
  - intros [= <- <-]. split; [done|]. cbn. lia.
  - cbn [for_each]. intros H.
    apply bind_inr in H as (evs1 & acc' & evs2 & Hc & Hrest & ->).
    apply bind_inr in Hc as (evs3 & bc & evs4 & Hc & [= <- <-] & ->).
    apply utf8_encode_char_inr in Hc as [-> Hw].
    apply IH in Hrest as [-> Hlen]. split; [done|].
    rewrite Hlen, length_app, Hw. cbn. lia.
Qed.

(** The byte length of a string that can be encoded is the sum of the
    widths of its characters. *)
Lemma bytes_utf8_length seg evs b :
  bytes_utf8 seg = (evs, inr b) →
  evs = [] ∧ length b = sum_list (utf8_width <$> seg).
Proof. intros H. by apply bytes_utf8_from in H. Qed.

Lemma utf8_width_pos c : (1 ≤ utf8_width c)%nat.
Proof. unfold utf8_width. repeat case_match; lia. Qed.

Lemma utf8_width_ascii c : utf8_width c = 1%nat ↔ c < 0x80.
Proof.
  unfold utf8_width. destruct (N.ltb_spec c 0x80); [done|].
  split; [|lia]. repeat case_match; lia.
Qed.

Lemma sum_widths_ge seg : (length seg ≤ sum_list (utf8_width <$> seg))%nat.
Proof.
  induction seg as [|c seg IH]; cbn; [lia|].
  pose proof (utf8_width_pos c). lia.
Qed.

(** The byte length equals the character count exactly for the strings of
    ASCII characters. *)
Lemma latin_class_ascii seg b :
  bytes_utf8 seg = ok b →
  length b = length seg ↔ Forall (λ c, c < 0x80) seg.
Proof.
  intros H. apply bytes_utf8_length in H as [_ ->]. clear b.
  induction seg as [|c seg IH]; [by split|].
  rewrite Forall_cons, <- IH.
  change (sum_list (utf8_width <$> c :: seg))
    with (utf8_width c + sum_list (utf8_width <$> seg))%nat.
  pose proof (sum_widths_ge seg). pose proof (utf8_width_ascii c).
  pose proof (utf8_width_pos c). cbn [length]. lia.
Qed.

(** ** Rewriting segments *)

Lemma is_prefix_spec p s : is_prefix p s = true ↔ ∃ l2, s = p ++ l2.
Proof.
  revert s. induction p as [|a p IH]; intros s; cbn [is_prefix].
  - split; [by exists s|done].
  - destruct s as [|b s].
    + split; [done|]. by intros [? [=]].
    + rewrite andb_true_iff, N.eqb_eq, IH. split.
      * intros [-> [l2 ->]]. by exists l2.
      * intros [l2 [= -> ->]]. split; [done|]. by exists l2.
Qed.

Lemma str_contains_spec s sub : str_contains s sub = true ↔ substring sub s.
Proof.
  unfold substring. induction s as [|c s IH]; cbn [str_contains].
  - rewrite orb_false_r, is_prefix_spec. split.
    + intros [l2 ->]. by exists [], l2.
    + intros (l1 & l2 & H). symmetry in H.
      apply app_eq_nil in H as [-> H]. by exists l2.
  - rewrite orb_true_iff, is_prefix_spec, IH. split.
    + intros [[l2 ->]|(l1 & l2 & ->)]; [by exists [], l2|].
      by exists (c :: l1), l2.
    + intros ([|c' l1] & l2 & H).
      * left. by exists l2.
      * injection H as -> ->. right. by exists l1, l2.
Qed.

(** For a token of one character, being found in [no_space_after] is being
    a space, a colon, an apostrophe or a double quote. *)
Lemma str_contains_no_space_after c :
  str_contains no_space_after [c] = true ↔ c ∈ [0x20; 0x3A; 0x27; 0x22].
Proof.
  cbn. rewrite !andb_true_r, !orb_false_r, !orb_true_iff, !N.eqb_eq.
  rewrite !elem_of_cons, elem_of_nil. tauto.
Qed.

Section PinyinFacts.

Variable cut : str → list str.
Variable lazy_pinyin : str → list str.

(** C3 (amended). A Latin-class segment is emitted character by
    character, after a single separator or none. The separator is
    injected if and only if something was emitted before, the segment has
    more than one character, and the last emitted token does not occur in
    the four characters space, colon, apostrophe, double quote; for a last
    token of one character, if and only if the segment has more than one
    character and that character is none of the four. *)
Theorem C3_latin_segment polyphone char_list seg b :
  bytes_utf8 seg = ok b →
  length b = length seg →
  ∃ sep,
    convert_seg lazy_pinyin polyphone char_list seg
      = ([], inr (char_list ++ sep ++ chars seg)) ∧
    (sep = [lit " "] ∨ sep = []) ∧
    (sep = [lit " "] ↔
       ∃ prev, last char_list = Some prev ∧ (1 < length seg)%nat ∧
               ¬ substring prev no_space_after) ∧
    (∀ c, last char_list = Some [c] →
       (sep = [lit " "] ↔
          (1 < length seg)%nat ∧ c ∉ [0x20; 0x3A; 0x27; 0x22])).
Proof.
  intros Hb Hlen. unfold convert_seg.
  rewrite Hb, bind_ok, Hlen, Nat.eqb_refl.
  assert (Hsub : ∀ prev, negb (str_contains no_space_after prev) = true ↔
                         ¬ substring prev no_space_after).
  { intros prev. rewrite negb_true_iff, <- not_true_iff_false.
    by rewrite str_contains_spec. }
  destruct (last char_list) as [prev|] eqn:Hlast.
  - destruct ((1 <? length seg)%nat
              && negb (str_contains no_space_after prev)) eqn:Hc.
    + apply andb_true_iff in Hc as [H1 H2].
      apply Nat.ltb_lt in H1. 
      exists [lit " "]. split; [by rewrite <- (assoc_L (++))|].
      split; [by left|]. split.
      * split; [|done]. intros _. exists prev. by rewrite <- Hsub.
      * intros c [= ->]. split; [|done]. intros _. split; [done|].
        rewrite <- str_contains_no_space_after.
        by apply negb_true_iff, not_true_iff_false in H2.
    + exists []. split; [done|]. split; [by right|]. split.
      * split; [done|]. intros (prev' & [= <-] & H1 & H2).
        apply Nat.ltb_lt in H1. apply Hsub in H2.
        by rewrite H1, H2 in Hc.
      * intros c [= ->]. split; [done|]. intros [H1 H2].
        apply Nat.ltb_lt in H1.
        rewrite <- str_contains_no_space_after in H2.
        apply not_true_iff_false in H2. by rewrite H1, H2 in Hc.
  - exists []. split; [done|]. split; [by right|]. split.
    + split; [done|]. by intros (? & [=] & _).
    + by intros c [=].
Qed.

(** *** The branch of pure east asian segments *)

Lemma call_lazy_pinyin_run s :
  call_lazy_pinyin lazy_pinyin s = ([Romanize s], inr (lazy_pinyin s)).
Proof. reflexivity. Qed.

Lemma for_each_silent {S X} (body : S → X → M S) xs s :
  (∀ s x, (body s x).1 = []) → (for_each body xs s).1 = [].
Proof.
  intros Hbody. revert s. induction xs as [|x xs IH]; intros s; [done|].
  cbn [for_each]. specialize (Hbody s x).
  destruct (body s x) as [evs [e|s']]; cbn in Hbody; subst evs; [done|].
  rewrite bind_run. cbn [fst app]. apply IH.
Qed.

Lemma cjk_loop seg_ seg k char_list :
  (k + length seg ≤ length seg_)%nat →
  for_each
    (λ char_list '(i, c),
       let char_list :=
         if is_chinese c then char_list ++ [lit " "] else char_list in
       p ← list_getitem seg_ i;
       mret (char_list ++ [p]))
    (zip (seq k (length seg)) seg) char_list
  = ok (char_list ++ concat (zip_with with_separator seg (drop k seg_))).
Proof.
  set (body := λ (char_list : list str) '(i, c), _).
  revert k char_list.
  induction seg as [|c seg IH]; intros k char_list Hk.
  - cbn. by rewrite app_nil_r.
  - cbn [length seq zip zip_with for_each]. cbn [length] in Hk.
    destruct (lookup_lt_is_Some_2 seg_ k) as [p Hp]; [lia|].
    assert (Hstep : body char_list (k, c) =
              ok ((if is_chinese c then char_list ++ [lit " "]
                   else char_list) ++ [p])).
    { unfold body, list_getitem. by rewrite Hp, bind_ok. }
    rewrite Hstep. unfold ok at 1. rewrite bind_run. 
    rewrite IH by lia. cbn [fst snd ok app].
    rewrite (drop_S _ _ _ Hp). cbn [concat].
    unfold with_separator, ok.
    destruct (is_chinese c); by rewrite <- !(assoc_L (++)).
Qed.

Lemma convert_seg_cjk char_list seg b :
  bytes_utf8 seg = ok b →
  length b ≠ length seg →
  length b = (3 * length seg)%nat →
  (length seg ≤ length (lazy_pinyin seg))%nat →
  convert_seg lazy_pinyin true char_list seg
    = ([Romanize seg],
       inr (char_list ++
            concat (zip_with with_separator seg (lazy_pinyin seg)))).
Proof.
  intros Hb Hne H3 Hlen. unfold convert_seg.
  rewrite Hb, bind_ok.
  rewrite (proj2 (Nat.eqb_neq _ _) Hne), (proj2 (Nat.eqb_eq _ _) H3).
  cbn [andb]. rewrite call_lazy_pinyin_run, bind_run.
  by rewrite cjk_loop.
Qed.

(** *** The branch of mixed segments *)

Lemma mixed_loop seg char_list :
  for_each
    (λ char_list c,
       if c <? 256 then mret (char_list ++ chars [c])
       else if is_chinese c then
         p ← call_lazy_pinyin lazy_pinyin [c];
         mret ((char_list ++ [lit " "]) ++ p)
       else mret (char_list ++ [[c]]))
    seg char_list
  = (seg ≫= (λ c, if is_chinese c then [Romanize [c]] else []),
     inr (char_list ++
          seg ≫= (λ c, if is_chinese c then lit " " :: lazy_pinyin [c]
                       else [[c]]))).
Proof.
  apply for_each_collect. intros s c.
  destruct (c <? 256) eqn:Hc.
  - apply N.ltb_lt in Hc. unfold is_chinese.
    by rewrite (proj2 (N.leb_gt _ _)) by lia.
  - destruct (is_chinese c); [|done].
    rewrite call_lazy_pinyin_run, bind_run.
    cbn [fst snd mret M_ret ok app]. by rewrite <- (assoc_L (++)).
Qed.

Lemma convert_seg_mixed polyphone char_list seg b :
  bytes_utf8 seg = ok b →
  length b ≠ length seg →
  polyphone = false ∨ length b ≠ (3 * length seg)%nat →
  convert_seg lazy_pinyin polyphone char_list seg
    = (seg ≫= (λ c, if is_chinese c then [Romanize [c]] else []),
       inr (char_list ++
            seg ≫= (λ c, if is_chinese c then lit " " :: lazy_pinyin [c]
                         else [[c]]))).
Proof.
  intros Hb Hne Hgate. unfold convert_seg.
  rewrite Hb, bind_ok, (proj2 (Nat.eqb_neq _ _) Hne).
  replace (polyphone && (length b =? 3 * length seg)%nat) with false.
  - apply mixed_loop.
  - destruct Hgate as [->|H3]; [done|].
    by rewrite (proj2 (Nat.eqb_neq _ _) H3), andb_false_r.
Qed.


(** C1 (amended). The polyphone flag is read in one place, the condition
    of the branch of pure east asian segments. For a segment that is not
    Latin-class and whose byte length is three times its character count,
    the romanizer is called on the whole segment, once, when polyphone is
    true. When polyphone is false, such a segment is rewritten by the
    branch of mixed segments: the romanizer is called on each character of
    U+3100..U+9FFF separately, and on no other character. A segment of the
    mixed class is rewritten in the same way for both values of the
    flag. *)
Theorem C1_polyphone_gate char_list seg b :
  bytes_utf8 seg = ok b →
  length b ≠ length seg →
  (length b = (3 * length seg)%nat →
     (convert_seg lazy_pinyin true char_list seg).1 = [Romanize seg]) ∧
  convert_seg lazy_pinyin false char_list seg
    = (seg ≫= (λ c, if is_chinese c then [Romanize [c]] else []),
       inr (char_list ++
            seg ≫= (λ c, if is_chinese c then lit " " :: lazy_pinyin [c]
                         else [[c]]))) ∧
  (length b ≠ (3 * length seg)%nat →
     convert_seg lazy_pinyin true char_list seg
       = convert_seg lazy_pinyin false char_list seg).
Proof.
  intros Hb Hne. split; [|split].
  - intros H3. unfold convert_seg.
    rewrite Hb, bind_ok.
    rewrite (proj2 (Nat.eqb_neq _ _) Hne), (proj2 (Nat.eqb_eq _ _) H3).
    cbn [andb]. rewrite call_lazy_pinyin_run, bind_run. cbn [fst].
    match goal with
    | |- context [for_each ?body ?xs ?s] =>
        pose proof (for_each_silent body xs s) as Hs
    end.
    rewrite Hs; [done|].
    intros s [i c]. unfold list_getitem.
    by destruct (lazy_pinyin seg !! i).
  - apply convert_seg_mixed with b; [done|done|by left].
  - intros H3.
    rewrite !(convert_seg_mixed _ char_list seg b) by auto. done.
Qed.

Lemma convert_texts_loop polyphone text_list acc :
  for_each
    (λ final_text_list text,
       char_list ← convert_text cut lazy_pinyin polyphone text;
       mret (final_text_list ++ [char_list]))
    text_list acc =
  for_each
    (λ final_text_list segments,
       char_list ← for_each (convert_seg lazy_pinyin polyphone) segments [];
       mret (final_text_list ++ [char_list]))
    ((λ text, cut (translate custom_trans text)) <$> text_list) acc.
Proof. by rewrite for_each_fmap. Qed.

(** C4 (amended). The substitution table maps the full-width parentheses
    and colon and the curly quotes to their ASCII equivalents, maps the
    full-width semicolon and the ASCII semicolon to a comma, and leaves
    every other character as it is. It is applied to every utterance
    before segmentation, whatever polyphone is: the segments that are
    rewritten are those of the substituted text. *)
Theorem C4_custom_trans :
  (∀ c, c ∈ [0xFF08; 0xFF09; 0xFF1A; 0x201C; 0x201D; 0x2018; 0x2019] →
     translate custom_trans [c] = [halfwidth_equivalent c]) ∧
  translate custom_trans [0xFF1B] = lit "," ∧
  translate custom_trans (lit ";") = lit "," ∧
  (∀ c, c ∉ [0xFF08; 0xFF09; 0xFF1A; 0xFF1B; 0x3B;
             0x201C; 0x201D; 0x2018; 0x2019] →
     translate custom_trans [c] = [c]) ∧
  (∀ polyphone text_list,
     convert_char_to_pinyin cut lazy_pinyin text_list polyphone =
       for_each
         (λ final_text_list segments,
            char_list ←
              for_each (convert_seg lazy_pinyin polyphone) segments [];
            mret (final_text_list ++ [char_list]))
         ((λ text, cut (translate custom_trans text)) <$> text_list) []).
Proof.
  split; [|split; [reflexivity|split; [reflexivity|split]]].
  - intros c Hc. rewrite !elem_of_cons, elem_of_nil in Hc.
    destruct Hc as [->|[->|[->|[->|[->|[->|[->|[]]]]]]]]; reflexivity.
  - intros c Hc. unfold translate. cbn [mbind list_bind].
    rewrite app_nil_r. unfold custom_trans.
    rewrite (not_elem_of_list_to_map_1 _ c); [done|].
    by cbn [fmap list_fmap fst].
  - intros polyphone text_list. apply convert_texts_loop.
Qed.

End PinyinFacts.

(** ** The theorems at sample inputs *)

Lemma C3_latin_segment_witness :
  ∃ sep,
    convert_seg sample_pinyin true [lit "a"] (lit "bc")
      = ([], inr ([lit "a"] ++ sep ++ chars (lit "bc"))) ∧
    sep = [lit " "].
Proof.
  destruct (C3_latin_segment sample_pinyin true [lit "a"] (lit "bc")
              (lit "bc") eq_refl eq_refl) as (sep & Hrun & _ & Hsep & _).
  exists sep. split; [exact Hrun|].
  apply Hsep. exists (lit "a"). split; [reflexivity|]. split; [cbn; lia|].
  rewrite <- str_contains_spec. vm_compute. discriminate.
Defined.

(** C3 as stated fails. After the token a, which is neither a separator
    nor a quote character, the one-character segment b is emitted without
    a separator; and after a colon, which is neither, the segment ab is
    emitted without a separator as well. *)
Lemma C3_counterexample :
  bytes_utf8 (lit "b") = ok (lit "b") ∧
  convert_seg sample_pinyin true [lit "a"] (lit "b")
    = ([], inr [lit "a"; lit "b"]) ∧
  bytes_utf8 (lit "ab") = ok (lit "ab") ∧
  convert_seg sample_pinyin true [lit ":"] (lit "ab")
    = ([], inr [lit ":"; lit "a"; lit "b"]).
Proof. repeat split; reflexivity. Qed.


Lemma C1_polyphone_gate_witness :
  (convert_seg sample_pinyin true [] nihao).1 = [Romanize nihao] ∧
  convert_seg sample_pinyin false [] nihao
    = ([Romanize [0x4F60]; Romanize [0x597D]],
       inr [lit " "; ni3; lit " "; hao3]).
Proof.
  destruct (C1_polyphone_gate sample_pinyin [] nihao
              [0xE4; 0xBD; 0xA0; 0xE5; 0xA5; 0xBD])
    as (Hwhole & Hsingle & _).
  - reflexivity.
  - cbn. lia.
  - split; [apply Hwhole; reflexivity|exact Hsingle].
Defined.

(** C1 as stated fails. The segment U+3001 has three bytes and one
    character; with polyphone false the romanizer is not called on it, nor
    at all. With polyphone false the romanizer is called on the two
    characters of U+4F60 U+597D one by one and not on the segment. And in a
    mixed segment, U+4F60 is romanized although polyphone is false. *)
Lemma C1_counterexample :
  bytes_utf8 [0x3001] = ok [0xE3; 0x80; 0x81] ∧
  convert_seg sample_pinyin false [] [0x3001] = ([], inr [[0x3001]]) ∧
  convert_seg sample_pinyin true [] [0x3001]
    = ([Romanize [0x3001]], inr [[0x3001]]) ∧
  convert_seg sample_pinyin false [] nihao
    = ([Romanize [0x4F60]; Romanize [0x597D]],
       inr [lit " "; ni3; lit " "; hao3]) ∧
  convert_seg sample_pinyin false [] [0x61; 0x4F60]
    = ([Romanize [0x4F60]], inr [lit "a"; lit " "; ni3]).
Proof. repeat split; reflexivity. Qed.

Lemma C4_custom_trans_witness :
  translate custom_trans [0xFF08] = lit "(" ∧
  translate custom_trans (lit "a") = lit "a".
Proof.
  destruct (C4_custom_trans whole_cut sample_pinyin)
    as (Hmapped & _ & _ & Hother & _).
  split.
  - apply (Hmapped 0xFF08). apply list_elem_of_here.
  - apply (Hother 0x61). vm_compute. 
    intros H. repeat (apply elem_of_cons in H as [H|H]; [discriminate H|]).
    by apply elem_of_nil in H.
Defined.

(** C4 as stated fails. The full-width semicolon U+FF1B is not mapped to
    its half-width equivalent, the semicolon, but to a comma. *)
Lemma C4_counterexample :
  translate custom_trans [0xFF1B] = [0x2C] ∧
  halfwidth_equivalent 0xFF1B = 0x3B ∧
  translate custom_trans [0xFF1B] ≠ [halfwidth_equivalent 0xFF1B].
Proof. split; [reflexivity|]. split; [reflexivity|]. vm_compute. discriminate. Qed.

Lemma C5_unknown_token_dropped_witness :
  ∃ out,
    tokens_to_token_ids ApplyBlankInterspersion sample_tokenizer
        [[lit "a"; lit "?"; lit "n"]; [lit "!"]] true false false
      = ([Warning (lit "Skip OOV ?"); Warning (lit "Skip OOV !")], inr out) ∧
    out !! 0%nat = Some [4; 0; 5]%Z ∧
    out !! 1%nat = Some [].
Proof.
  destruct (C5_unknown_token_dropped ApplyBlankInterspersion sample_tokenizer
              [[lit "a"; lit "?"; lit "n"]; [lit "!"]] true false false)
    as (out & Hrun & _ & Hith & _).
  exists out. split; [exact Hrun|].
  split; [exact (Hith 0%nat _ eq_refl)|exact (Hith 1%nat _ eq_refl)].
Defined.


(** * Further properties of the code *)

(** ** Fields of a line *)

Lemma split_from_fields cur s f :
  Forall (λ c, isspace c = false) cur →
  f ∈ split_from cur s →
  f ≠ [] ∧ Forall (λ c, isspace c = false) f.
Proof.
  revert cur. induction s as [|c s IH]; intros cur Hcur; cbn [split_from].
  - destruct cur as [|a cur]; [by intros ?%elem_of_nil|].
    intros ->%list_elem_of_singleton. split.
    + intros H%(f_equal length). rewrite length_reverse in H. done.
    + by apply Forall_reverse.
  - destruct (isspace c) eqn:Hc.
    + destruct cur as [|a cur]; [by apply IH|].
      intros [->|Hf]%elem_of_cons; [|by apply (IH [])].
      split.
      * intros H%(f_equal length). rewrite length_reverse in H. done.
      * by apply Forall_reverse.
    + apply IH. by constructor.
Qed.

Lemma split_fields s f :
  f ∈ split s → f ≠ [] ∧ Forall (λ c, isspace c = false) f.
Proof. by apply split_from_fields. Qed.

(** A token read from a line is the space, or it is not empty and holds no
    white space. *)
Lemma line_fields_token line token s :
  line_fields line = Some (token, s) →
  token = lit " " ∨ (token ≠ [] ∧ Forall (λ c, isspace c = false) token).
Proof.
  unfold line_fields.
  destruct (split (rstrip line)) as [|a [|b r]] eqn:Hs; intros [= <- <-].
  - by left.
  - right. apply (split_fields (rstrip line)). rewrite Hs. by left.
Qed.

Section VocabularyInvariants.

Variable int : str → M Z.

(** The loop body in terms of the fields of the line. *)
Lemma parse_line_fields d line :
  parse_line int d line =
    match line_fields line with
    | None => raise IndexError
    | Some (token, s) =>
        id ← int s;
        _ ← assert (negb (dict_contains d token)) token;
        mret (<[token := id]> d)
    end.
Proof.
  unfold parse_line, line_fields.
  destruct (split (rstrip line)) as [|a [|b r]]; [done|..];
    cbn [length Nat.eqb]; unfold list_getitem; cbn [lookup list_lookup];
    rewrite ?bind_ok; destruct (int _) as [evs [e|id]];
    rewrite ?bind_fail, ?bind_run, ?bind_ok; try done;
    cbn [fst snd mret M_ret ok]; rewrite bind_run; cbn [fst snd];
    by rewrite app_nil_r.
Qed.

Lemma parse_line_inr d line evs d' :
  parse_line int d line = (evs, inr d') →
  ∃ token s id,
    line_fields line = Some (token, s) ∧ int s = (evs, inr id) ∧
    d !! token = None ∧ d' = <[token := id]> d.
Proof.
  rewrite parse_line_fields.
  destruct (line_fields line) as [[token s]|]; [|done].
  intros H. apply bind_inr in H as (evs1 & id & evs2 & Hint & H & ->).
  unfold assert, dict_contains in H.
  destruct (d !! token) as [v|] eqn:Hd.
  - rewrite bool_decide_eq_true_2 in H by by eexists. done.
  - rewrite bool_decide_eq_false_2 in H by by intros [? [=]].
    cbn [negb] in H. rewrite bind_ok in H. injection H as <- <-.
    exists token, s, id. by rewrite app_nil_r.
Qed.

Lemma parse_line_duplicate d line token s evs id :
  line_fields line = Some (token, s) →
  int s = (evs, inr id) →
  is_Some (d !! token) →
  parse_line int d line = (evs, inl (AssertionError token)).
Proof.
  intros Hf Hint Hd. rewrite parse_line_fields, Hf, Hint, bind_run.
  unfold assert, dict_contains. rewrite bool_decide_eq_true_2 by done.
  cbn [negb]. rewrite bind_raise. cbn. by rewrite app_nil_r.
Qed.

(** What the loop over the lines has done when it ends without exception. *)
Lemma parse_lines_inr lines d0 evs d :
  for_each (parse_line int) lines d0 = (evs, inr d) →
  size d = (size d0 + length lines)%nat ∧
  (∀ k v, d0 !! k = Some v → d !! k = Some v) ∧
  (∀ line token s, line ∈ lines → line_fields line = Some (token, s) →
     d0 !! token = None ∧
     ∃ evs' id, int s = (evs', inr id) ∧ d !! token = Some id) ∧
  (∀ k v, d !! k = Some v →
     d0 !! k = Some v ∨
     ∃ line s evs', line ∈ lines ∧ line_fields line = Some (k, s) ∧
                    int s = (evs', inr v)) ∧
  Forall (λ line, is_Some (line_fields line)) lines ∧
  NoDup (omap (λ line, fst <$> line_fields line) lines).
Proof.
  revert d0 evs. induction lines as [|line lines IH]; intros d0 evs.
  - intros [= <- <-]. split; [cbn; lia|]. split; [done|].
    split; [by intros ??? ?%elem_of_nil|]. split; [by left|].
    split; constructor.
  - cbn [for_each]. intros H.
    apply bind_inr in H as (evs1 & d1 & evs2 & Hline & Hrest & ->).
    apply parse_line_inr in Hline as (token & s & id & Hf & Hint & Hd0 & ->).
    apply IH in Hrest as (Hsize & Hmono & Hlines & Hback & Hall & Hnodup).
    assert (Htok : <[token:=id]> d0 !! token = Some id)
      by apply lookup_insert_eq.
    split; [|split; [|split; [|split; [|split]]]].
    + rewrite Hsize, map_size_insert_None by done. cbn [length]. lia.
    + intros k v Hk. apply Hmono. rewrite lookup_insert_ne; [done|].
      intros ->. congruence.
    + intros line' token' s' [->|Hin]%elem_of_cons Hf'.
      * rewrite Hf in Hf'. injection Hf' as <- <-.
        split; [done|]. exists evs1, id. split; [done|]. by apply Hmono.
      * destruct (Hlines _ _ _ Hin Hf') as (Hnone & Hid).
        apply lookup_insert_None in Hnone as [Hnone _]. by split.
    + intros k v Hk. destruct (Hback _ _ Hk) as [Hk1|(l & s' & e' & ? & ? & ?)].
      * destruct (decide (token = k)) as [<-|Hne].
        -- rewrite Htok in Hk1. injection Hk1 as <-.
           right. exists line, s, evs1. split; [by left|done].
        -- left. by rewrite lookup_insert_ne in Hk1.
      * right. exists l, s', e'. split; [by right|done].
    + constructor; [by rewrite Hf|done].
    + cbn [omap list_omap]. rewrite Hf. cbn [fmap option_fmap option_map fst].
      constructor; [|done].
      intros (l & Hin & Hl)%list_elem_of_omap.
      destruct (line_fields l) as [[token' s']|] eqn:Hf'; [|done].
      injection Hl as ->.
      destruct (Hlines _ _ _ Hin Hf') as (Hnone & _). congruence.
Qed.

(** The constructor after the loop: the four lookups, in order. *)
Lemma Tokenizer_init_after_loop lines evs d :
  parse_token_file int lines = (evs, inr d) →
  Tokenizer_init int lines =
    ((evs, inr d) : M (gmap str Z)) ≫= λ token2id,
      pad_id ← dict_getitem token2id (lit "_");
      sos_id ← dict_getitem token2id (lit "^");
      eos_id ← dict_getitem token2id (lit "$");
      space_id ← dict_getitem token2id (lit " ");
      mret {| token2id := token2id; pad_id := pad_id; sos_id := sos_id;
              eos_id := eos_id; space_id := space_id;
              vocab_size := size token2id |}.
Proof. intros H. unfold Tokenizer_init. by rewrite H. Qed.

Lemma Tokenizer_init_inr lines evs self :
  Tokenizer_init int lines = (evs, inr self) →
  parse_token_file int lines = (evs, inr (token2id self)).
Proof.
  unfold Tokenizer_init, dict_getitem. intros H.
  apply bind_inr in H as (evs1 & d & evs2 & Hparse & H & ->).
  rewrite Hparse.
  destruct (d !! lit "_") as [p|]; [|done]. rewrite bind_ok in H.
  destruct (d !! lit "^") as [b|]; [|done]. rewrite bind_ok in H.
  destruct (d !! lit "$") as [e|]; [|done]. rewrite bind_ok in H.
  destruct (d !! lit " ") as [w|]; [|done]. rewrite bind_ok in H.
  injection H as <- <-. by rewrite app_nil_r.
Qed.

(** X1. When the lines were read without exception, the constructor looks
    up the reserved tokens underscore, caret, dollar and space in this order:
    the first of them that has no line raises a KeyError that names it, and
    when all four are there the tokenizer is built on the table read. *)
Theorem X1_reserved_tokens_required lines evs d :
  parse_token_file int lines = (evs, inr d) →
  (∀ before k after,
     reserved_tokens = before ++ k :: after →
     Forall (λ k', is_Some (d !! k')) before →
     d !! k = None →
     Tokenizer_init int lines = (evs, inl (KeyError k))) ∧
  (Forall (λ k, is_Some (d !! k)) reserved_tokens →
     ∃ self, Tokenizer_init int lines = (evs, inr self) ∧
             token2id self = d).
Proof.
  intros Hparse. rewrite (Tokenizer_init_after_loop _ _ _ Hparse), bind_run.
  unfold reserved_tokens, dict_getitem. split.
  - intros before k after Hsplit Hbefore Hk.
    destruct before as [|k1 [|k2 [|k3 [|k4 before]]]];
      simplify_eq/=; repeat match goal with
      | H : Forall _ (_ :: _) |- _ => apply Forall_cons in H as [[? ?] H]
      end;
      repeat match goal with
      | H : d !! _ = Some _ |- _ => rewrite H, ?bind_ok; clear H
      end;
      rewrite ?Hk; cbn; try by rewrite app_nil_r.
    by destruct before.
  - intros Hall.
    repeat match goal with
      | H : Forall _ (_ :: _) |- _ => apply Forall_cons in H as [[? ?] H]
      end.
    repeat match goal with
      | H : d !! _ = Some _ |- _ => rewrite H, ?bind_ok; clear H
      end.
    eexists. cbn. rewrite app_nil_r. by split.
Qed.

(** X2. A line whose token was already read from an earlier line stops the
    load: when the lines before it were read without exception and its id
    field is an integer, the constructor raises the AssertionError of the
    duplicate check, with the token as its message. *)
Theorem X2_duplicate_token_rejected pre line post evs d token s evs' id :
  parse_token_file int pre = (evs, inr d) →
  line_fields line = Some (token, s) →
  int s = (evs', inr id) →
  is_Some (d !! token) →
  Tokenizer_init int (pre ++ line :: post)
    = (evs ++ evs', inl (AssertionError token)).
Proof.
  intros Hpre Hf Hint Hd. unfold Tokenizer_init, parse_token_file in *.
  rewrite for_each_app, Hpre, bind_run. cbn [for_each].
  by rewrite (parse_line_duplicate _ _ _ _ _ _ Hf Hint Hd), !bind_fail.
Qed.

(** X3. A tokenizer that was loaded has exactly one entry for each line of
    the token file: [vocab_size] is the number of lines, every line has a
    token field, and the tokens of the lines are pairwise distinct. *)
Theorem X3_one_entry_per_line lines evs self :
  Tokenizer_init int lines = (evs, inr self) →
  vocab_size self = length lines ∧
  size (token2id self) = length lines ∧
  Forall (λ line, is_Some (line_fields line)) lines ∧
  NoDup (omap (λ line, fst <$> line_fields line) lines).
Proof.
  intros Hinit.
  destruct (Tokenizer_init_reserved _ _ _ _ Hinit) as (_ & _ & _ & _ & Hv).
  apply Tokenizer_init_inr, parse_lines_inr in Hinit
    as (Hsize & _ & _ & _ & Hall & Hnodup).
  rewrite map_size_empty in Hsize. by rewrite Hv.
Qed.

(** X4. The table of a loaded tokenizer is what the lines say: the token of
    every line is mapped to the integer of its id field, and every entry of
    the table is the token and the id of some line. *)
Theorem X4_table_is_lines lines evs self :
  Tokenizer_init int lines = (evs, inr self) →
  (∀ line token s, line ∈ lines → line_fields line = Some (token, s) →
     ∃ evs' id, int s = (evs', inr id) ∧ token2id self !! token = Some id) ∧
  (∀ token id, token2id self !! token = Some id →
     ∃ line s evs', line ∈ lines ∧ line_fields line = Some (token, s) ∧
                    int s = (evs', inr id)).
Proof.
  intros Hinit.
  apply Tokenizer_init_inr, parse_lines_inr in Hinit
    as (_ & _ & Hlines & Hback & _). split.
  - intros line token s Hin Hf. by destruct (Hlines _ _ _ Hin Hf).
  - intros token id Hk. by destruct (Hback _ _ Hk) as [?|?].
Qed.

(** X5. Every token of a loaded tokenizer is the space, or a string that is
    not empty and holds no white space character. *)
Theorem X5_token_shape lines evs self token id :
  Tokenizer_init int lines = (evs, inr self) →
  token2id self !! token = Some id →
  token = lit " " ∨ (token ≠ [] ∧ Forall (λ c, isspace c = false) token).
Proof.
  intros Hinit Hk.
  apply Tokenizer_init_inr, parse_lines_inr in Hinit as (_ & _ & _ & Hback & _).
  destruct (Hback _ _ Hk) as [?|(line & s & _ & _ & Hf & _)]; [done|].
  by apply line_fields_token in Hf.
Qed.

End VocabularyInvariants.

(** ** The substitution table *)

Lemma translate_cons table c text :
  translate table (c :: text) = default [c] (table !! c) ++ translate table text.
Proof. reflexivity. Qed.

Lemma translate_app table s1 s2 :
  translate table (s1 ++ s2) = translate table s1 ++ translate table s2.
Proof. unfold translate. apply bind_app. Qed.

Ltac not_in_list :=
  let H := fresh in
  intros H; repeat (apply elem_of_cons in H as [H|H]; [discriminate H|]);
  by apply elem_of_nil in H.

(** A character is replaced by one character, which is no key of the
    table; a character that is no key of the table is kept. *)
Lemma custom_trans_char c :
  ∃ r, default [c] (custom_trans !! c) = [r] ∧ (r ∉ custom_trans_keys) ∧
       (c ∉ custom_trans_keys → r = c).
Proof.
  destruct (decide (c ∈ custom_trans_keys)) as [Hin|Hout].
  - unfold custom_trans_keys in Hin.
    repeat (apply elem_of_cons in Hin as [->|Hin]);
      [eexists; (split; [reflexivity|]); (split; [not_in_list|]);
       intros Hc; exfalso; apply Hc; unfold custom_trans_keys;
       rewrite !elem_of_cons; tauto ..|].
    by apply elem_of_nil in Hin.
  - exists c. unfold custom_trans.
    rewrite (not_elem_of_list_to_map_1 _ c); [done|].
    by cbn [fmap list_fmap fst].
Qed.

(** X6. After the substitution an utterance holds none of the nine
    characters of the table: no full-width parenthesis, colon or semicolon,
    no curly quote, and no ASCII semicolon. *)
Theorem X6_no_table_key_left text :
  Forall (λ c, c ∉ custom_trans_keys) (translate custom_trans text).
Proof.
  induction text as [|c text IH]; [constructor|].
  rewrite translate_cons.
  destruct (custom_trans_char c) as (r & -> & Hr & _).
  by constructor.
Qed.

(** X7. The substitution replaces character by character: it keeps the
    length of the utterance, and applying it twice is applying it once. *)
Theorem X7_substitution_idempotent text :
  length (translate custom_trans text) = length text ∧
  translate custom_trans (translate custom_trans text)
    = translate custom_trans text.
Proof.
  induction text as [|c text [IHlen IHid]]; [done|].
  rewrite translate_cons.
  destruct (custom_trans_char c) as (r & -> & Hr & _).
  split; [cbn [app length]; by rewrite IHlen|].
  cbn [app]. rewrite translate_cons, IHid.
  by destruct (custom_trans_char r) as (r' & -> & _ & ->).
Qed.

(** ** Segments and their byte lengths *)

Lemma utf8_encode_char_ok c :
  is_surrogate c = false →
  ∃ b, utf8_encode_char c = ok b ∧ length b = utf8_width c.
Proof.
  unfold is_surrogate, utf8_encode_char, utf8_width. intros ->.
  repeat case_match; by eexists.
Qed.

Lemma utf8_encode_char_surrogate c :
  is_surrogate c = true → utf8_encode_char c = raise (UnicodeEncodeError c).
Proof.
  unfold is_surrogate, utf8_encode_char. intros Hs. rewrite Hs.
  apply andb_true_iff in Hs as [H1%N.leb_le H2%N.leb_le].
  rewrite (proj2 (N.ltb_ge c 0x80)), (proj2 (N.ltb_ge c 0x800)) by lia.
  by rewrite (proj2 (N.ltb_lt c 0x10000)) by lia.
Qed.

Lemma bytes_utf8_from_ok seg acc :
  Forall (λ c, is_surrogate c = false) seg →
  ∃ b, for_each (λ acc c, b ← utf8_encode_char c; mret (acc ++ b)) seg acc
         = ok b.
Proof.
  intros Hseg. revert acc.
  induction Hseg as [|c seg Hc _ IH]; intros acc; [by eexists|].
  cbn [for_each].
  destruct (utf8_encode_char_ok c Hc) as (bc & -> & _).
  rewrite !bind_ok. apply IH.
Qed.

(** A string without surrogate has a UTF-8 encoding. *)
Lemma bytes_utf8_ok seg :
  Forall (λ c, is_surrogate c = false) seg → ∃ b, bytes_utf8 seg = ok b.
Proof. apply bytes_utf8_from_ok. Qed.

(** The first surrogate of a string is the one [bytes] complains about. *)
Lemma bytes_utf8_surrogate pre c post :
  Forall (λ c, is_surrogate c = false) pre →
  is_surrogate c = true →
  bytes_utf8 (pre ++ c :: post) = raise (UnicodeEncodeError c).
Proof.
  intros Hpre Hc. unfold bytes_utf8. rewrite for_each_app.
  destruct (bytes_utf8_from_ok pre [] Hpre) as (b & ->).
  rewrite bind_ok. cbn [for_each].
  by rewrite (utf8_encode_char_surrogate c Hc).
Qed.

Lemma utf8_width_chinese c : is_chinese c = true → utf8_width c = 3%nat.
Proof.
  unfold is_chinese, utf8_width.
  intros [H1%N.leb_le H2%N.leb_le]%andb_true_iff.
  rewrite (proj2 (N.ltb_ge c 0x80)), (proj2 (N.ltb_ge c 0x800)) by lia.
  by rewrite (proj2 (N.ltb_lt c 0x10000)) by lia.
Qed.

Lemma is_chinese_not_surrogate c : is_chinese c = true → is_surrogate c = false.
Proof.
  unfold is_chinese, is_surrogate.
  intros [H1%N.leb_le H2%N.leb_le]%andb_true_iff.
  by rewrite (proj2 (N.leb_gt 0xD800 c)) by lia.
Qed.

(** A segment of characters of the range U+3100..U+9FFF has three bytes for
    each character. *)
Lemma bytes_utf8_chinese seg :
  Forall (λ c, is_chinese c = true) seg →
  ∃ b, bytes_utf8 seg = ok b ∧ length b = (3 * length seg)%nat.
Proof.
  intros Hseg.
  destruct (bytes_utf8_ok seg) as (b & Hb).
  { eapply Forall_impl; [done|]. apply is_chinese_not_surrogate. }
  exists b. split; [done|].
  apply bytes_utf8_length in Hb as [_ ->].
  induction Hseg as [|c seg Hc _ IH]; [done|].
  change (sum_list (utf8_width <$> c :: seg))
    with (utf8_width c + sum_list (utf8_width <$> seg))%nat.
  rewrite IH, (utf8_width_chinese c Hc). cbn [length]. lia.
Qed.

(** X8. The test of the first branch, byte length equal to character count,
    holds exactly for the segments of ASCII characters (code points below
    U+0080), among the segments that have a UTF-8 encoding. *)
Theorem X8_latin_class_is_ascii seg b :
  bytes_utf8 seg = ok b →
  ((length b =? length seg)%nat = true) ↔ Forall (λ c, c < 0x80) seg.
Proof.
  intros Hb. rewrite Nat.eqb_eq. by apply latin_class_ascii.
Qed.

(** ** What the rewriter keeps *)

Lemma for_each_extends {X A} (body : list A → X → M (list A)) xs s evs out :
  (∀ s x evs s', body s x = (evs, inr s') → ∃ new, s' = s ++ new) →
  for_each body xs s = (evs, inr out) → ∃ new, out = s ++ new.
Proof.
  intros Hbody. revert s evs. induction xs as [|x xs IH]; intros s evs.
  - intros [= <- <-]. exists []. by rewrite app_nil_r.
  - cbn [for_each]. intros H.
    apply bind_inr in H as (evs1 & s1 & evs2 & Hx & Hxs & ->).
    apply Hbody in Hx as (new1 & ->). apply IH in Hxs as (new2 & ->).
    exists (new1 ++ new2). by rewrite (assoc_L (++)).
Qed.

Section PinyinInvariants.

Variable cut : str → list str.
Variable lazy_pinyin : str → list str.

(** The first branch, for a segment whose byte length is its length. *)
Lemma convert_seg_latin polyphone char_list seg b :
  bytes_utf8 seg = ok b →
  length b = length seg →
  convert_seg lazy_pinyin polyphone char_list seg =
    ok (match last char_list with
        | Some prev =>
            if (1 <? length seg)%nat && negb (str_contains no_space_after prev)
            then char_list ++ [lit " "]
            else char_list
        | None => char_list
        end ++ chars seg).
Proof.
  intros Hb Hlen. unfold convert_seg.
  by rewrite Hb, bind_ok, Hlen, Nat.eqb_refl.
Qed.

(** X9. A segment that holds a surrogate code point cannot be rewritten:
    whatever polyphone and the tokens emitted so far, the rewriter raises the
    UnicodeEncodeError of the first surrogate, and the romanizer is not
    called. *)
Theorem X9_surrogate_raises polyphone char_list pre c post :
  Forall (λ c, is_surrogate c = false) pre →
  is_surrogate c = true →
  convert_seg lazy_pinyin polyphone char_list (pre ++ c :: post)
    = ([], inl (UnicodeEncodeError c)).
Proof.
  intros Hpre Hc. unfold convert_seg.
  by rewrite (bytes_utf8_surrogate pre c post Hpre Hc), bind_raise.
Qed.

(** X10. For a segment that is not empty and whose characters all lie in
    U+3100..U+9FFF, with polyphone true and a romanizer that returns one
    syllable per character, the romanizer is called once, on the segment,
    and the tokens appended are a separator and a syllable in turn: two
    tokens for each character. *)
Theorem X10_chinese_segment char_list seg :
  seg ≠ [] →
  Forall (λ c, is_chinese c = true) seg →
  length (lazy_pinyin seg) = length seg →
  convert_seg lazy_pinyin true char_list seg
    = ([Romanize seg],
       inr (char_list ++ (lazy_pinyin seg ≫= λ syllable, [lit " "; syllable])))
  ∧ length (lazy_pinyin seg ≫= λ syllable, [lit " "; syllable])
    = (2 * length seg)%nat.
Proof.
  intros Hne Hseg Hlen.
  destruct (bytes_utf8_chinese seg Hseg) as (b & Hb & H3).
  assert (Hnl : length b ≠ length seg).
  { destruct seg; [done|]. cbn [length] in *. lia. }
  rewrite (convert_seg_cjk lazy_pinyin char_list seg b Hb Hnl H3) by lia.
  revert Hlen Hseg. clear. generalize (lazy_pinyin seg) as ps.
  induction seg as [|c seg IH]; intros [|p ps] Hlen Hseg; try done.
  apply Forall_cons in Hseg as [Hc Hseg]. injection Hlen as Hlen.
  destruct (IH ps Hlen Hseg) as [Heq Hl].
  injection Heq as Heq%app_inv_head. split.
  - cbn [zip_with concat]. rewrite bind_cons, Heq.
    unfold with_separator at 1. by rewrite Hc.
  - rewrite bind_cons, length_app, Hl. cbn [length]. lia.
Qed.

(** X11. The rewriter only appends: when it returns, the tokens emitted
    before the segment are the beginning of the tokens it returns. *)
Theorem X11_rewriter_appends polyphone char_list seg evs out :
  convert_seg lazy_pinyin polyphone char_list seg = (evs, inr out) →
  ∃ new, out = char_list ++ new.
Proof.
  unfold convert_seg. intros H.
  apply bind_inr in H as (evs1 & b & evs2 & _ & H & _).
  destruct (length b =? length seg)%nat.
  - injection H as _ <-.
    destruct (last char_list) as [prev|]; [|by eexists].
    destruct (_ && _); [|by eexists].
    eexists. by rewrite <- (assoc_L (++)).
  - destruct (polyphone && _).
    + apply bind_inr in H as (? & seg_ & ? & _ & H & _).
      apply for_each_extends in H; [done|].
      intros s [i c] evs' s' Hs.
      apply bind_inr in Hs as (? & p & ? & _ & [= _ <-] & _).
      destruct (is_chinese c); eexists; [by rewrite <- (assoc_L (++))|done].
    + apply for_each_extends in H; [done|].
      intros s c evs' s' Hs.
      destruct (c <? 256); [injection Hs as _ <-; by eexists|].
      destruct (is_chinese c); [|injection Hs as _ <-; by eexists].
      apply bind_inr in Hs as (? & p & ? & _ & [= _ <-] & _).
      eexists. by rewrite <- (assoc_L (++)).
Qed.

(** X12. With polyphone false the rewriter cannot fail on a segment without
    surrogate, whatever the romanizer returns: the exception of a romanizer
    result shorter than the segment belongs to polyphone true alone. *)
Theorem X12_no_failure_without_polyphone char_list seg :
  Forall (λ c, is_surrogate c = false) seg →
  ∃ evs out, convert_seg lazy_pinyin false char_list seg = (evs, inr out).
Proof.
  intros Hseg. destruct (bytes_utf8_ok seg Hseg) as (b & Hb).
  destruct (decide (length b = length seg)) as [Hl|Hl].
  - rewrite (convert_seg_latin false char_list seg b Hb Hl). by eexists _, _.
  - rewrite (convert_seg_mixed lazy_pinyin false char_list seg b Hb Hl)
      by by left.
    by eexists _, _.
Qed.

End PinyinInvariants.

(** X13. A segment of ASCII characters is rewritten without the romanizer:
    the result is the same for every romanizer and for both values of
    polyphone, and no call is made. *)
Theorem X13_ascii_segment_needs_no_romanizer
    lazy_pinyin1 lazy_pinyin2 polyphone1 polyphone2 char_list seg :
  Forall (λ c, c < 0x80) seg →
  convert_seg lazy_pinyin1 polyphone1 char_list seg
    = convert_seg lazy_pinyin2 polyphone2 char_list seg ∧
  (convert_seg lazy_pinyin1 polyphone1 char_list seg).1 = [].
Proof.
  intros Hseg. destruct (bytes_utf8_ok seg) as (b & Hb).
  { eapply Forall_impl; [done|]. intros c Hc. unfold is_surrogate.
    apply andb_false_iff. left. apply N.leb_gt.
    apply N.lt_trans with 0x80; [exact Hc|done]. }
  pose proof (proj2 (latin_class_ascii seg b Hb) Hseg) as Hl.
  by rewrite !(convert_seg_latin _ _ char_list seg b Hb Hl).
Qed.

(** ** Batches *)

(** A loop that appends one result for each element. *)
Lemma for_each_results {X R} (f : X → M R) xs s evs out :
  for_each (λ s x, r ← f x; mret (s ++ [r])) xs s = (evs, inr out) →
  ∃ rs, out = s ++ rs ∧ length rs = length xs ∧
        ∀ i x, xs !! i = Some x →
               ∃ evs' r, f x = (evs', inr r) ∧ rs !! i = Some r.
Proof.
  revert s evs. induction xs as [|x xs IH]; intros s evs.
  - intros [= <- <-]. exists []. rewrite app_nil_r. by split.
  - cbn [for_each]. intros H.
    apply bind_inr in H as (evs1 & s1 & evs2 & Hx & Hxs & ->).
    apply bind_inr in Hx as (evs3 & r & evs4 & Hf & [= <- <-] & ->).
    apply IH in Hxs as (rs & -> & Hlen & Hith).
    exists (r :: rs). rewrite <- (assoc_L (++)). split; [done|].
    split; [by cbn [length]; rewrite Hlen|].
    intros [|i] x' Hi.
    + injection Hi as <-. by exists evs3, r.
    + by apply Hith.
Qed.

Section BatchInvariants.

Variable intersperse : list Z → Z → list Z.
Variable cut : str → list str.
Variable lazy_pinyin : str → list str.

Lemma convert_char_to_pinyin_results text_list polyphone evs out :
  convert_char_to_pinyin cut lazy_pinyin text_list polyphone = (evs, inr out) →
  length out = length text_list ∧
  ∀ i text, text_list !! i = Some text →
    ∃ evs' char_list,
      convert_text cut lazy_pinyin polyphone text = (evs', inr char_list) ∧
      out !! i = Some char_list.
Proof.
  unfold convert_char_to_pinyin. intros H.
  apply (for_each_results (convert_text cut lazy_pinyin polyphone)) in H
    as (rs & -> & Hlen & Hith).
  by split.
Qed.

(** X14. When the batch conversion returns, it returns one token list for
    each utterance, in the order of the utterances, and each token list is
    the conversion of its own utterance alone. *)
Theorem X14_one_token_list_per_text text_list polyphone evs out :
  convert_char_to_pinyin cut lazy_pinyin text_list polyphone = (evs, inr out) →
  length out = length text_list ∧
  ∀ i text, text_list !! i = Some text →
    ∃ evs' char_list,
      convert_text cut lazy_pinyin polyphone text = (evs', inr char_list) ∧
      out !! i = Some char_list.
Proof. apply convert_char_to_pinyin_results. Qed.

(** X15. An utterance that cannot be converted fails the batch: when the
    utterances before it were converted, the batch conversion raises the
    exception of that utterance, and returns no token list at all. *)
Theorem X15_failing_text_fails_batch pre text post polyphone evs out evs' e :
  convert_char_to_pinyin cut lazy_pinyin pre polyphone = (evs, inr out) →
  convert_text cut lazy_pinyin polyphone text = (evs', inl e) →
  convert_char_to_pinyin cut lazy_pinyin (pre ++ text :: post) polyphone
    = (evs ++ evs', inl e).
Proof.
  unfold convert_char_to_pinyin. intros Hpre Htext.
  rewrite for_each_app, Hpre, bind_run. cbn [for_each].
  by rewrite Htext, !bind_fail.
Qed.

Lemma MapTokens_MapDiagnostics_length d tokens :
  (length (MapTokens d tokens) + length (MapDiagnostics d tokens))%nat
    = length tokens.
Proof.
  unfold MapTokens, MapDiagnostics. induction tokens as [|t tokens IH]; [done|].
  cbn [omap list_omap]. rewrite filter_cons.
  destruct (d !! t) as [id|] eqn:Ht.
  - rewrite decide_False by done. cbn [length]. lia.
  - rewrite decide_True by done. cbn [length fmap list_fmap]. lia.
Qed.

Lemma MapDiagnostics_elem d tokens t :
  Warning (lit "Skip OOV " ++ t) ∈ MapDiagnostics d tokens ↔
  t ∈ tokens ∧ d !! t = None.
Proof.
  unfold MapDiagnostics. rewrite list_elem_of_fmap. split.
  - intros (t' & [= ->] & Hin). by apply list_elem_of_filter in Hin as [? ?].
  - intros [? ?]. exists t. split; [done|]. by apply list_elem_of_filter.
Qed.

Lemma MapDiagnostics_nil d tokens :
  MapDiagnostics d tokens = [] ↔ Forall (λ t, is_Some (d !! t)) tokens.
Proof.
  unfold MapDiagnostics. induction tokens as [|t tokens IH]; [done|].
  rewrite filter_cons, Forall_cons, <- IH.
  destruct (d !! t) as [id|] eqn:Ht.
  - rewrite decide_False by done. split; [by split|by intros [_ ?]].
  - rewrite decide_True by done. split; [done|]. by intros [[? [=]] _].
Qed.

(** X16. No token is lost silently: without the optional steps, the number
    of ids of an utterance and the number of warnings emitted for it add up
    to the number of its tokens. *)
Theorem X16_id_or_warning self tokens :
  ∃ ids,
    tokens_to_ids intersperse self false false false tokens
      = (MapDiagnostics (token2id self) tokens, inr ids) ∧
    (length ids + length (MapDiagnostics (token2id self) tokens))%nat
      = length tokens.
Proof.
  rewrite tokens_to_ids_run. eexists. split; [done|].
  unfold ApplySosEos. cbn [app]. rewrite app_nil_r.
  apply MapTokens_MapDiagnostics_length.
Qed.

(** X17. A batch is mapped without any warning exactly when every token of
    every utterance is in the vocabulary. *)
Theorem X17_no_warning_iff_all_known self tokens_list ib add_sos add_eos :
  (tokens_to_token_ids intersperse self tokens_list ib add_sos add_eos).1 = []
  ↔ Forall (Forall (λ t, is_Some (token2id self !! t))) tokens_list.
Proof.
  rewrite tokens_to_token_ids_run. cbn [fst].
  induction tokens_list as [|tokens tokens_list IH]; [done|].
  rewrite bind_cons, Forall_cons, <- IH, <- MapDiagnostics_nil. split.
  - by intros [? ?]%app_eq_nil.
  - by intros [-> ->].
Qed.

(** X18. For the tags cmn and zh-cn the entry point never returns None:
    when it returns, it returns one id list for each text, and when it
    raises, the exception is one of the pinyin conversion. *)
Theorem X18_chinese_tags self texts ib add_sos add_eos lang :
  lang = lit "cmn" ∨ lang = lit "zh-cn" →
  (∀ evs r,
     texts_to_token_ids intersperse cut lazy_pinyin self texts
       ib add_sos add_eos lang = (evs, inr r) →
     ∃ out, r = Some out ∧ length out = length texts) ∧
  (∀ evs e,
     texts_to_token_ids intersperse cut lazy_pinyin self texts
       ib add_sos add_eos lang = (evs, inl e) →
     convert_char_to_pinyin cut lazy_pinyin texts true = (evs, inl e)).
Proof.
  intros Hlang. unfold texts_to_token_ids.
  rewrite bool_decide_eq_true_2
    by (rewrite !elem_of_cons; destruct Hlang; tauto).
  destruct (convert_char_to_pinyin cut lazy_pinyin texts true)
    as [evs1 [e1|tokens_list]] eqn:Hconv.
  - rewrite bind_fail. split; [done|by intros ?? [= <- <-]].
  - rewrite bind_run, tokens_to_token_ids_run, bind_run. cbn [fst snd].
    split; [|done]. intros evs r [= _ <-]. eexists. split; [done|].
    rewrite length_fmap.
    by apply convert_char_to_pinyin_results in Hconv as [-> _].
Qed.

End BatchInvariants.

(** X19. For a tokenizer that was loaded, no warning is ever emitted for a
    reserved token: underscore, caret, dollar and the space, and so every
    separator the pinyin conversion injects, are always mapped to an id. *)
Theorem X19_reserved_tokens_never_skipped
    (int : str → M Z) (intersperse : list Z → Z → list Z)
    lines evs self tokens_list ib add_sos add_eos t :
  Tokenizer_init int lines = (evs, inr self) →
  t ∈ reserved_tokens →
  Warning (lit "Skip OOV " ++ t)
    ∉ (tokens_to_token_ids intersperse self tokens_list ib add_sos add_eos).1.
Proof.
  intros Hinit Ht.
  apply Tokenizer_init_reserved in Hinit as (Hpad & Hsos & Heos & Hsp & _).
  rewrite tokens_to_token_ids_run. cbn [fst].
  intros (tokens & Hin & _)%list_elem_of_bind.
  apply MapDiagnostics_elem in Hin as [_ Hnone].
  unfold reserved_tokens in Ht.
  repeat (apply elem_of_cons in Ht as [->|Ht]; [congruence|]).
  by apply elem_of_nil in Ht.
Qed.

(** ** The further properties at sample inputs *)

Lemma sample_tokenizer_loaded :
  Tokenizer_init ascii_int sample_lines = ([], inr sample_tokenizer).
Proof. vm_compute. reflexivity. Qed.

Lemma X1_reserved_tokens_required_witness :
  Tokenizer_init ascii_int [lit "_ 0"; lit "^ 1"]
    = ([], inl (KeyError (lit "$"))).
Proof.
  apply (proj1 (X1_reserved_tokens_required ascii_int
                  [lit "_ 0"; lit "^ 1"] []
                  (<[lit "^" := 1%Z]> {[ lit "_" := 0%Z ]}) eq_refl)
           [lit "_"; lit "^"] (lit "$") [lit " "]).
  - reflexivity.
  - repeat constructor; eexists; reflexivity.
  - reflexivity.
Defined.

Lemma X2_duplicate_token_rejected_witness :
  Tokenizer_init ascii_int [lit "a 1"; lit "a 2"]
    = ([], inl (AssertionError (lit "a"))).
Proof.
  apply (X2_duplicate_token_rejected ascii_int [lit "a 1"] (lit "a 2") []
           [] {[ lit "a" := 1%Z ]} (lit "a") (lit "2") [] 2%Z).
  - reflexivity.
  - reflexivity.
  - reflexivity.
  - eexists. reflexivity.
Defined.

Lemma X3_one_entry_per_line_witness :
  vocab_size sample_tokenizer = 8%nat ∧
  size (token2id sample_tokenizer) = 8%nat.
Proof.
  destruct (X3_one_entry_per_line ascii_int sample_lines [] sample_tokenizer
              sample_tokenizer_loaded) as (Hv & Hs & _).
  split; [exact Hv|exact Hs].
Defined.

Lemma X4_table_is_lines_witness :
  ∃ evs' id, ascii_int (lit "4") = (evs', inr id) ∧
             token2id sample_tokenizer !! lit "a" = Some id.
Proof.
  apply (proj1 (X4_table_is_lines ascii_int sample_lines [] sample_tokenizer
                  sample_tokenizer_loaded) (lit "a 4") (lit "a") (lit "4")).
  - do 4 apply list_elem_of_further. apply list_elem_of_here.
  - reflexivity.
Defined.

Lemma X5_token_shape_witness :
  ni3 = lit " " ∨ (ni3 ≠ [] ∧ Forall (λ c, isspace c = false) ni3).
Proof.
  apply (X5_token_shape ascii_int sample_lines [] sample_tokenizer ni3 6%Z
           sample_tokenizer_loaded).
  reflexivity.
Defined.

Lemma X8_latin_class_is_ascii_witness :
  ((length (lit "hello") =? length (lit "hello"))%nat = true)
  ↔ Forall (λ c, c < 0x80) (lit "hello").
Proof.
  apply (X8_latin_class_is_ascii (lit "hello") (lit "hello")). reflexivity.
Defined.

Lemma X9_surrogate_raises_witness :
  convert_seg sample_pinyin true [lit "a"] [0x4F60; 0xD800; 0x597D]
    = ([], inl (UnicodeEncodeError 0xD800)).
Proof.
  apply (X9_surrogate_raises sample_pinyin true [lit "a"] [0x4F60] 0xD800
           [0x597D]).
  - repeat constructor.
  - reflexivity.
Defined.

Lemma X10_chinese_segment_witness :
  convert_seg sample_pinyin true [lit "a"] nihao
    = ([Romanize nihao], inr [lit "a"; lit " "; ni3; lit " "; hao3]).
Proof.
  apply (X10_chinese_segment sample_pinyin [lit "a"] nihao).
  - discriminate.
  - repeat constructor.
  - reflexivity.
Defined.

Lemma X11_rewriter_appends_witness :
  ∃ new, [lit "a"; lit " "; ni3; lit " "; hao3] = [lit "a"] ++ new.
Proof.
  apply (X11_rewriter_appends sample_pinyin true [lit "a"] nihao
           [Romanize nihao]).
  reflexivity.
Defined.

Lemma X12_no_failure_without_polyphone_witness :
  ∃ evs out, convert_seg (λ _, []) false [] nihao = (evs, inr out).
Proof.
  apply (X12_no_failure_without_polyphone (λ _, []) [] nihao).
  repeat constructor.
Defined.

Lemma X13_ascii_segment_needs_no_romanizer_witness :
  convert_seg sample_pinyin true [lit "a"] (lit "hi")
    = convert_seg (λ _, []) false [lit "a"] (lit "hi") ∧
  (convert_seg sample_pinyin true [lit "a"] (lit "hi")).1 = [].
Proof.
  apply (X13_ascii_segment_needs_no_romanizer sample_pinyin (λ _, [])
           true false [lit "a"] (lit "hi")).
  repeat constructor.
Defined.

Lemma X14_one_token_list_per_text_witness :
  length [[lit " "; ni3; lit " "; hao3]; [lit "h"; lit "i"]] = 2%nat.
Proof.
  apply (X14_one_token_list_per_text whole_cut sample_pinyin
           [nihao; lit "hi"] true [Romanize nihao]
           [[lit " "; ni3; lit " "; hao3]; [lit "h"; lit "i"]]).
  reflexivity.
Defined.

Lemma X15_failing_text_fails_batch_witness :
  convert_char_to_pinyin whole_cut sample_pinyin
    [nihao; [0xD800]; lit "hi"] true
  = ([Romanize nihao], inl (UnicodeEncodeError 0xD800)).
Proof.
  apply (X15_failing_text_fails_batch whole_cut sample_pinyin
           [nihao] [0xD800] [lit "hi"] true [Romanize nihao]
           [[lit " "; ni3; lit " "; hao3]] [] (UnicodeEncodeError 0xD800)).
  - reflexivity.
  - reflexivity.
Defined.

Lemma X18_chinese_tags_witness :
  ∃ out, Some [[3; 0; 6; 0; 3; 0; 7]%Z] = Some out ∧
         length out = length [nihao].
Proof.
  apply (proj1 (X18_chinese_tags ApplyBlankInterspersion whole_cut
                  sample_pinyin sample_tokenizer [nihao] true false false
                  (lit "zh-cn") (or_intror eq_refl))
           [Romanize nihao]).
  vm_compute. reflexivity.
Defined.

Lemma X19_reserved_tokens_never_skipped_witness :
  (tokens_to_token_ids ApplyBlankInterspersion sample_tokenizer
     [[lit " "; lit "?"]] true false false).1
    = [Warning (lit "Skip OOV ?")] ∧
  Warning (lit "Skip OOV " ++ lit " ")
    ∉ (tokens_to_token_ids ApplyBlankInterspersion sample_tokenizer
         [[lit " "; lit "?"]] true false false).1.
Proof.
  split; [reflexivity|].
  apply (X19_reserved_tokens_never_skipped ascii_int ApplyBlankInterspersion
           sample_lines [] sample_tokenizer).
  - exact sample_tokenizer_loaded.
  - do 3 apply list_elem_of_further. apply list_elem_of_here.
Defined.
